(** * mpags-cipher: the command-line driver and its Caesar dispatcher

    A shallow embedding of [main] (mpags-cipher.cpp) together with the
    declarations it relies on from Cipher.hpp and ProcessCommandLine.hpp.

    Conventions.
    - [size_t] values are integers in [0, 2^64); products and sums are
      reduced modulo [2^64] the way unsigned arithmetic does.
    - [std::string] is [string]; [std::string::substr] is [substr], which
      raises [out_of_range] when the start position lies beyond the end.
    - A C++ call that may throw returns a [result]; [main] itself ends
      either by returning an exit code or with an exception nobody caught.
    - The streams [std::cout] / [std::cerr], the files written and the
      calls made on the cipher are carried in an explicit [State] record.
    - The collaborators of [main] whose bodies live in other translation
      units (command-line parser, character transliteration, the factory,
      the file system, the scheduler deciding what [wait_for] observes)
      are the fields of an [Env] record. *)

From Stdlib Require Import ZArith Lia List String Ascii Bool.
Import ListNotations.

Local Open Scope string_scope.
Local Open Scope Z_scope.

(* ===================================================================== *)
(** * Part I: the program *)
(* ===================================================================== *)

(** ** Unsigned arithmetic on [size_t] *)

Module SizeT.

Definition bits : Z := 64.
Definition modulus : Z := 2 ^ bits.
Definition max : Z := modulus - 1.

Definition wrap (z : Z) : Z := z mod modulus.

Definition mul (a b : Z) : Z := wrap (a * b).
Definition add (a b : Z) : Z := wrap (a + b).
Definition div (a b : Z) : Z := a / b.
Definition rem (a b : Z) : Z := a mod b.

End SizeT.

(** ** Exceptions and fallible calls *)

(** The exception classes that can travel through [main].  [InvalidKey]
    (Cipher.hpp), [MissingArgument] and [UnknownArgument]
    (ProcessCommandLine.hpp) each forward their message to
    [std::invalid_argument]; [out_of_range] is what [substr] raises;
    [other_exception] stands for any class not named in the sources. *)
Inductive exn : Type :=
| InvalidKey (msg : string)
| MissingArgument (msg : string)
| UnknownArgument (msg : string)
| out_of_range (msg : string)
| other_exception (msg : string).

(** [e.what()]: the message handed to the constructor, untouched. *)
Definition what (e : exn) : string :=
  match e with
  | InvalidKey msg | MissingArgument msg | UnknownArgument msg
  | out_of_range msg | other_exception msg => msg
  end.

Inductive result (A : Type) : Type :=
| Ok (a : A)
| Throw (e : exn).
Arguments Ok {A} a.
Arguments Throw {A} e.

Definition bind {A B : Type} (r : result A) (k : A -> result B) : result B :=
  match r with
  | Ok a => k a
  | Throw e => Throw e
  end.

Notation "x <- r ;; k" := (bind r (fun x => k))
  (at level 61, r at next level, right associativity).

(** ** Strings *)

Definition endl : string := String (ascii_of_nat 10) EmptyString.

(** [s.length()] as a [size_t]. *)
Definition size (s : string) : Z := Z.of_nat (String.length s).

(** [s.empty()]. *)
Definition empty (s : string) : bool :=
  match s with
  | EmptyString => true
  | String _ _ => false
  end.

(** [s.substr(pos, count)]: the characters [pos, min(pos+count, size)),
    or [out_of_range] when [pos > size]. *)
Definition substr (s : string) (pos count : Z) : result string :=
  if size s <? pos then Throw (out_of_range "basic_string::substr")
  else Ok (substring (Z.to_nat pos) (Z.to_nat count) s).

(** [isspace] in the "C" locale: what formatted extraction skips. *)
Definition isspace (c : ascii) : bool :=
  let n := nat_of_ascii c in
  (Nat.eqb n 32 || (Nat.leb 9 n && Nat.leb n 13))%bool.

Definition isupper (c : ascii) : bool :=
  let n := nat_of_ascii c in (Nat.leb 65 n && Nat.leb n 90)%bool.

Definition islower (c : ascii) : bool :=
  let n := nat_of_ascii c in (Nat.leb 97 n && Nat.leb n 122)%bool.

Definition isdigit (c : ascii) : bool :=
  let n := nat_of_ascii c in (Nat.leb 48 n && Nat.leb n 57)%bool.

Definition isalpha (c : ascii) : bool := (isupper c || islower c)%bool.

(** Letter-only text: the documented input domain of a cipher. *)
Fixpoint letters_only (s : string) : bool :=
  match s with
  | EmptyString => true
  | String c rest => (isalpha c && letters_only rest)%bool
  end.

(** ** CipherMode.hpp, CipherType.hpp *)

(** Modelled from the spec: the enumeration [CipherMode] (CipherMode.hpp
    is not among the sources); spec section 3 lists Encrypt and Decrypt. *)
Inductive CipherMode : Type := Encrypt | Decrypt.

(** Modelled from the spec: the enumeration [CipherType] (CipherType.hpp
    is not among the sources); spec section 3 lists Caesar, Playfair and
    Vigenere. *)
Inductive CipherType : Type := Caesar | Playfair | Vigenere.

Definition CipherType_eqb (a b : CipherType) : bool :=
  match a, b with
  | Caesar, Caesar | Playfair, Playfair | Vigenere, Vigenere => true
  | _, _ => false
  end.

(** ** Cipher.hpp *)

(** The abstract class [Cipher]: one virtual member, [applyCipher].  Like
    every C++ call it may leave by an exception, hence the [result]. *)
Record Cipher : Type := {
  applyCipher : string -> CipherMode -> result string
}.

(** ** ProcessCommandLine.hpp *)

Record ProgramSettings : Type := {
  helpRequested : bool;
  versionRequested : bool;
  inputFile : string;
  outputFile : string;
  cipherKey : string;
  cipherMode : CipherMode;
  cipherType : CipherType
}.

(** ** What the program does to the outside *)

(** Calls observed on the invoking context: a task handed to
    [std::async], or [applyCipher] run directly. *)
Inductive event : Type :=
| Async (first len : Z)
| Apply (text : string) (mode : CipherMode).

Record State : Type := {
  cout : string;
  cerr : string;
  files : list (string * string);
  trace : list event
}.

Definition start : State :=
  {| cout := ""; cerr := ""; files := []; trace := [] |}.

Definition to_cout (s : string) (st : State) : State :=
  {| cout := cout st ++ s; cerr := cerr st; files := files st; trace := trace st |}.

Definition to_cerr (s : string) (st : State) : State :=
  {| cout := cout st; cerr := cerr st ++ s; files := files st; trace := trace st |}.

Definition to_file (name s : string) (st : State) : State :=
  {| cout := cout st; cerr := cerr st;
     files := files st ++ [(name, s)]; trace := trace st |}.

Definition record (ev : event) (st : State) : State :=
  {| cout := cout st; cerr := cerr st; files := files st;
     trace := trace st ++ [ev] |}.

(** [std::future_status]. *)
Inductive future_status : Type := ready | timeout | deferred.

(** A [std::future<std::string>]: the arguments its task was started
    with and what the task leaves in the shared state, a string or the
    exception that [get] rethrows. *)
Record future : Type := {
  task_first : Z;
  task_len : Z;
  shared_state : result string
}.

Definition get (elem : future) : result string := shared_state elem.

(** How [main] ends: [return code], or an exception left uncaught. *)
Inductive exit : Type :=
| Return (code : Z)
| Terminate (e : exn).

(** The collaborators of [main] defined outside the sources at hand.
    - [processCommandLine args settings] gives back the updated settings;
    - [transformChar] turns one character read into the text to append;
    - [cipherFactory] gives a [std::unique_ptr<Cipher>], possibly null;
    - [ifstream name] is [None] when the stream is not [good()], else the
      characters of the file; [cin] holds the characters of standard input;
    - [ofstream_good name] tells whether the output stream is [good()];
    - [wait_for n k] is what the [k]-th call of [wait_for] on the [n]-th
      future observes. *)
Record Env : Type := {
  processCommandLine : list string -> ProgramSettings -> result ProgramSettings;
  transformChar : ascii -> string;
  cipherFactory : CipherType -> string -> result (option Cipher);
  ifstream : string -> option string;
  cin : string;
  ofstream_good : string -> bool;
  wait_for : nat -> nat -> future_status
}.

(** ** mpags-cipher.cpp *)

Definition usage : string :=
  "Usage: mpags-cipher [-i/--infile <file>] [-o/--outfile <file>] [-c/--cipher <cipher>] [-k/--key <key>] [--encrypt/--decrypt]" ++ endl ++ endl
  ++ "Encrypts/Decrypts input alphanumeric text using classical ciphers" ++ endl ++ endl
  ++ "Available options:" ++ endl ++ endl
  ++ "  -h|--help" ++ endl
  ++ "                      Print this help message and exit" ++ endl ++ endl
  ++ "  -v|--version" ++ endl
  ++ "                      Print version information" ++ endl ++ endl
  ++ "  -i|--infile FILE" ++ endl
  ++ "                      Read text to be processed from FILE" ++ endl
  ++ "                      Stdin will be used if not supplied" ++ endl ++ endl
  ++ "  -o|--outfile FILE" ++ endl
  ++ "                      Write processed text to FILE" ++ endl
  ++ "                      Stdout will be used if not supplied" ++ endl ++ endl
  ++ "  -c|--cipher CIPHER" ++ endl
  ++ "                      Specify the cipher to be used to perform the encryption/decryption" ++ endl
  ++ "                      CIPHER can be caesar, playfair or vigenere - caesar is the default" ++ endl ++ endl
  ++ "  -k|--key KEY" ++ endl
  ++ "                      Specify the cipher KEY" ++ endl
  ++ "                      A null key, i.e. no encryption, is used if not supplied" ++ endl ++ endl
  ++ "  --encrypt" ++ endl
  ++ "                      Will use the cipher to encrypt the input text (default behaviour)" ++ endl ++ endl
  ++ "  --decrypt" ++ endl
  ++ "                      Will use the cipher to decrypt the input text" ++ endl ++ endl.

Definition version : string := "0.5.0".

(** Line 25: the settings before the command line is looked at. *)
Definition default_settings : ProgramSettings :=
  {| helpRequested := false; versionRequested := false;
     inputFile := ""; outputFile := ""; cipherKey := "";
     cipherMode := Encrypt; cipherType := Caesar |}.

(** Lines 94-97 and 103-106: [while (stream >> inputChar)
    inputText += transformChar(inputChar);].  Extraction of a [char]
    skips white space. *)
Fixpoint read_loop (transform : ascii -> string) (stream inputText : string)
  : string :=
  match stream with
  | EmptyString => inputText
  | String inputChar rest =>
      if isspace inputChar then read_loop transform rest inputText
      else read_loop transform rest (inputText ++ transform inputChar)
  end.

(** Lines 79-107: [None] when the input file cannot be read. *)
Definition read_input (E : Env) (settings : ProgramSettings) : option string :=
  if negb (empty (inputFile settings)) then
    match ifstream E (inputFile settings) with
    | None => None
    | Some contents => Some (read_loop (transformChar E) contents "")
    end
  else Some (read_loop (transformChar E) (cin E) "").

Definition numThreads : Z := 4.

(** Lines 129-131: the lambda [fn]. *)
Definition fn (cipher : Cipher) (inputText : string) (mode : CipherMode)
  (first len : Z) : result string :=
  piece <- substr inputText first len ;;
  applyCipher cipher piece mode.

(** Lines 139 and 142, first argument: [i*inputLength/numThreads]. *)
Definition segment_first (inputLength i : Z) : Z :=
  SizeT.div (SizeT.mul i inputLength) numThreads.

(** Lines 138-143, second argument. *)
Definition segment_len (inputLength i : Z) : Z :=
  if negb (i =? numThreads - 1) then SizeT.div inputLength numThreads
  else SizeT.add (SizeT.div inputLength numThreads)
                 (SizeT.rem inputLength numThreads).

(** [std::async(fn, first, len)]: the task runs [fn first len] and its
    outcome becomes the shared state of the future. *)
Definition async (run : Z -> Z -> result string) (first len : Z) : future :=
  {| task_first := first; task_len := len; shared_state := run first len |}.

(** Lines 137-144: [for (int i{0}; i < numThreads; ++i)], with [steps]
    bounding the iterations still to run. *)
Fixpoint launch_loop (steps : nat) (i : Z) (run : Z -> Z -> result string)
  (inputLength : Z) (futures : list future) (st : State)
  : list future * State :=
  match steps with
  | O => (futures, st)
  | S steps' =>
      if i <? numThreads then
        let first := segment_first inputLength i in
        let len := segment_len inputLength i in
        launch_loop steps' (i + 1) run inputLength
          (futures ++ [async run first len]) (record (Async first len) st)
      else (futures, st)
  end.

(** Lines 147-153: [do { status = elem.wait_for(10s); ... } while
    (status != ready)].  [k] counts the calls of [wait_for] made so far on
    this future; [None] means the loop is still turning when [fuel] polls
    have been made. *)
Fixpoint wait_loop (fuel : nat) (status_at : nat -> future_status) (k : nat)
  (st : State) : option State :=
  match fuel with
  | O => None
  | S fuel' =>
      let status := status_at k in
      let st' :=
        match status with
        | timeout => to_cout ("waiting... " ++ endl) st
        | _ => st
        end in
      match status with
      | ready => Some st'
      | _ => wait_loop fuel' status_at (S k) st'
      end
  end.

(** Lines 145-155: [for (auto& elem : futures)], [n] being the position
    of [elem] in the vector. *)
Fixpoint collect_loop (fuel : nat) (poll : nat -> nat -> future_status)
  (n : nat) (futures : list future) (outputText : string) (st : State)
  : option (result string * State) :=
  match futures with
  | [] => Some (Ok outputText, st)
  | elem :: rest =>
      match wait_loop fuel (poll n) 0 st with
      | None => None
      | Some st' =>
          match get elem with
          | Throw e => Some (Throw e, st')
          | Ok s => collect_loop fuel poll (S n) rest (outputText ++ s) st'
          end
      end
  end.

(** Lines 127-156: the Caesar branch. *)
Definition dispatch (fuel : nat) (poll : nat -> nat -> future_status)
  (cipher : Cipher) (mode : CipherMode) (inputText : string) (st : State)
  : option (result string * State) :=
  let inputLength := size inputText in
  let '(futures, st1) :=
    launch_loop (Z.to_nat numThreads) 0 (fn cipher inputText mode)
      inputLength [] st in
  collect_loop fuel poll 0 futures "" st1.

(** Lines 124-161. *)
Definition process (fuel : nat) (E : Env) (cipher : Cipher)
  (settings : ProgramSettings) (inputText : string) (st : State)
  : option (result string * State) :=
  if CipherType_eqb (cipherType settings) Caesar then
    dispatch fuel (wait_for E) cipher (cipherMode settings) inputText st
  else
    Some (applyCipher cipher inputText (cipherMode settings),
          record (Apply inputText (cipherMode settings)) st).

(** Lines 163-184. *)
Definition write_output (E : Env) (settings : ProgramSettings)
  (outputText : string) (st : State) : exit * State :=
  if negb (empty (outputFile settings)) then
    if ofstream_good E (outputFile settings) then
      (Return 0, to_file (outputFile settings) (outputText ++ endl) st)
    else
      (Return 1,
       to_cerr ("[error] failed to create ostream on file '"
                ++ outputFile settings ++ "'" ++ endl) st)
  else (Return 0, to_cout (outputText ++ endl) st).

(** Lines 109-185: from the construction of the cipher on. *)
Definition encipher (fuel : nat) (E : Env) (settings : ProgramSettings)
  (inputText : string) (st : State) : option (exit * State) :=
  match cipherFactory E (cipherType settings) (cipherKey settings) with
  | Throw (InvalidKey _ as e) =>
      Some (Return 1, to_cerr ("[error] Invalid key: " ++ what e ++ endl) st)
  | Throw e => Some (Terminate e, st)
  | Ok None =>
      Some (Return 1,
            to_cerr ("[error] problem constructing requested cipher" ++ endl) st)
  | Ok (Some cipher) =>
      match process fuel E cipher settings inputText st with
      | None => None
      | Some (Throw e, st') => Some (Terminate e, st')
      | Some (Ok outputText, st') => Some (write_output E settings outputText st')
      end
  end.

(** [main], on the arguments [cmdLineArgs].  [None] means that [fuel]
    polls of some future were not enough to see it ready. *)
Definition main (fuel : nat) (E : Env) (cmdLineArgs : list string)
  : option (exit * State) :=
  match processCommandLine E cmdLineArgs default_settings with
  | Throw (MissingArgument _ as e) =>
      Some (Return 1,
            to_cerr ("[error] Missing argument: " ++ what e ++ endl) start)
  | Throw (UnknownArgument _ as e) =>
      Some (Return 1,
            to_cerr ("[error] Unknown argument: " ++ what e ++ endl) start)
  | Throw e => Some (Terminate e, start)
  | Ok settings =>
      if helpRequested settings then Some (Return 0, to_cout usage start)
      else if versionRequested settings then
        Some (Return 0, to_cout (version ++ endl) start)
      else
        match read_input E settings with
        | None =>
            Some (Return 1,
                  to_cerr ("[error] failed to create istream on file '"
                           ++ inputFile settings ++ "'" ++ endl) start)
        | Some inputText => encipher fuel E settings inputText start
        end
  end.

(** ** The Caesar variant *)

Module Alphabet.

Definition alphabetSize : Z := 26.

Definition code (c : ascii) : Z := Z.of_nat (nat_of_ascii c).
Definition char (z : Z) : ascii := ascii_of_nat (Z.to_nat z).

(** Modelled from the spec: the alphabet utilities (Alphabet.hpp is not
    among the sources).  Spec section 4.1: a letter maps to an index 0-25
    whatever its case, indices are added modulo 26, and (4.3) the result
    takes the case of the original letter.  A character that is not a
    letter is passed through, one of the two behaviours 4.1 allows. *)
Definition shift_char (k : Z) (c : ascii) : ascii :=
  if isupper c then char (65 + (code c - 65 + k) mod alphabetSize)
  else if islower c then char (97 + (code c - 97 + k) mod alphabetSize)
  else c.

End Alphabet.

(** One character at a time, each on its own. *)
Fixpoint map_string (f : ascii -> ascii) (s : string) : string :=
  match s with
  | EmptyString => EmptyString
  | String c rest => String (f c) (map_string f rest)
  end.

(** The decimal number written by [s], behind the digits already read
    into [acc]; [None] when a character is not a digit. *)
Fixpoint parse_digits (s : string) (acc : Z) : option Z :=
  match s with
  | EmptyString => Some acc
  | String c rest =>
      if isdigit c then parse_digits rest (10 * acc + (Alphabet.code c - 48))
      else None
  end.

(** Modelled from the spec: reading a Caesar key (CaesarCipher.cpp is not
    among the sources).  Spec section 4.3: the key string must parse
    entirely as an integer; negative values are allowed for. *)
Definition parse_integer (s : string) : option Z :=
  match s with
  | EmptyString => None
  | String c rest =>
      if Ascii.eqb c "-" then
        if empty rest then None else option_map Z.opp (parse_digits rest 0)
      else parse_digits s 0
  end.

(** Modelled from the spec: [CaesarCipher::applyCipher] (CaesarCipher.cpp
    is not among the sources).  Spec section 4.3: the effective shift is
    the key reduced modulo 26, negated first on decryption; every letter
    is moved by it, independently of its neighbours. *)
Definition caesar (key : Z) : Cipher :=
  {| applyCipher := fun inputText mode =>
       let k := match mode with
                | Encrypt => key mod Alphabet.alphabetSize
                | Decrypt => (- key) mod Alphabet.alphabetSize
                end in
       Ok (map_string (Alphabet.shift_char k) inputText) |}.

(** Modelled from the spec: the constructor [CaesarCipher(key)]
    (CaesarCipher.cpp is not among the sources).  Spec section 4.3: a key
    that does not parse as an integer is an invalid key; the wording of
    the explanation is not fixed by the spec. *)
Definition CaesarCipher (key : string) : result Cipher :=
  match parse_integer key with
  | Some k => Ok (caesar k)
  | None => Throw (InvalidKey "Caesar cipher requires an integer key")
  end.

(** ** A concrete environment to run [main] in *)

(** Modelled from the spec: a factory for the Caesar variant alone
    (CipherFactory.cpp is not among the sources).  Spec section 4.6: the
    factory calls the constructor of the variant and lets its invalid-key
    failure through.  Playfair and Vigenere are not modelled here, so for
    them this factory has no instance to hand out. *)
Definition caesar_factory (type : CipherType) (key : string)
  : result (option Cipher) :=
  match type with
  | Caesar => cipher <- CaesarCipher key ;; Ok (Some cipher)
  | Playfair | Vigenere => Ok None
  end.

(** Modelled from the spec: [transformChar] (TransformChar.cpp is not
    among the sources).  Spec section 6: the text reaching a cipher is
    made of upper-case letters.  Letters are kept, in upper case, and
    everything else is left out. *)
Definition upper_letters (c : ascii) : string :=
  if isupper c then String c EmptyString
  else if islower c then
    String (Alphabet.char (Alphabet.code c - 32)) EmptyString
  else EmptyString.

(** An environment in which the command line has been read as [settings],
    standard input holds [stdin], no file can be opened, and the futures
    are observed as [polls] says. *)
Definition terminal (settings : ProgramSettings) (stdin : string)
  (polls : nat -> nat -> future_status) : Env :=
  {| processCommandLine := fun _ _ => Ok settings;
     transformChar := upper_letters;
     cipherFactory := caesar_factory;
     ifstream := fun _ => None;
     cin := stdin;
     ofstream_good := fun _ => false;
     wait_for := polls |}.

Definition with_key (type : CipherType) (key : string) (mode : CipherMode)
  : ProgramSettings :=
  {| helpRequested := false; versionRequested := false;
     inputFile := ""; outputFile := ""; cipherKey := key;
     cipherMode := mode; cipherType := type |}.

(** Every future is found ready by the first poll. *)
Definition prompt : nat -> nat -> future_status := fun _ _ => ready.

(** The [n]-th future times out [n + 2] times before it is ready. *)
Definition sluggish : nat -> nat -> future_status :=
  fun n k => if Nat.ltb k (n + 2) then timeout else ready.

(** ** The three variants, with the look-ups they rest on *)

Module Variants.

(** Modelled from the spec: the alphabet utilities (Alphabet.hpp is not
    among the sources).  Spec section 4.1: a fixed alphabet of 26 letters;
    a letter maps to an index 0-25 whatever its case, an index maps back
    to its letter in the canonical, upper, case.  Neither look-up has an
    answer outside these ranges. *)
Definition alphabet : list ascii :=
  list_ascii_of_string "ABCDEFGHIJKLMNOPQRSTUVWXYZ".

Definition toupper (c : ascii) : ascii :=
  if islower c then Alphabet.char (Alphabet.code c - 32) else c.

Definition tolower (c : ascii) : ascii :=
  if isupper c then Alphabet.char (Alphabet.code c + 32) else c.

(** Where [c] stands in [cells], if it does. *)
Fixpoint position (c : ascii) (cells : list ascii) : option nat :=
  match cells with
  | [] => None
  | x :: rest =>
      if Ascii.eqb x c then Some 0%nat else option_map S (position c rest)
  end.

Definition index_of (c : ascii) : option nat := position (toupper c) alphabet.

Definition letter_at (i : nat) : option ascii := nth_error alphabet i.

(** The letter [c] in the case of [original]. *)
Definition recase (original c : ascii) : ascii :=
  if islower original then tolower c else c.

(** Modelled from the spec: moving one letter (CaesarCipher.cpp and
    VigenereCipher.cpp are not among the sources).  Spec sections 4.3 and
    4.5: the shift is added to the index of the letter modulo 26 and the
    result takes the case of the original letter.  What is not a letter
    is passed through, as section 4.1 allows and 4.5 supposes. *)
Definition shift_letter (k : nat) (c : ascii) : result ascii :=
  match index_of c with
  | None => Ok c
  | Some i =>
      match letter_at ((i + k) mod 26)%nat with
      | Some l => Ok (recase c l)
      | None => Throw (out_of_range "alphabet")
      end
  end.

(** Modelled from the spec: the Caesar variant (CaesarCipher.cpp is not
    among the sources).  Spec section 4.3: the effective shift is the key
    reduced modulo 26, a negative key wrapping to a positive residue, and
    is negated before the reduction when decrypting. *)
Definition effective_shift (key : Z) (mode : CipherMode) : nat :=
  Z.to_nat (match mode with
            | Encrypt => key mod 26
            | Decrypt => (- key) mod 26
            end).

Fixpoint caesar_text (k : nat) (text : string) : result string :=
  match text with
  | EmptyString => Ok EmptyString
  | String c rest =>
      c' <- shift_letter k c ;;
      rest' <- caesar_text k rest ;;
      Ok (String c' rest')
  end.

Definition build_caesar (key : string) : result Cipher :=
  match parse_integer key with
  | Some k =>
      Ok {| applyCipher := fun text mode =>
              caesar_text (effective_shift k mode) text |}
  | None => Throw (InvalidKey "Caesar cipher requires an integer key")
  end.

(** Modelled from the spec: the Vigenere variant (VigenereCipher.cpp is
    not among the sources).  Spec section 4.5: the key is the indices of
    the letters of the keyword; a keyword without a letter is an invalid
    key; the key is repeated cyclically, one key letter for each letter of
    the text, what is not a letter taking no key position; encryption
    adds the key index, decryption subtracts it, modulo 26.  The wording
    of the explanation is not fixed by the spec. *)
Fixpoint key_indices (key : string) : list nat :=
  match key with
  | EmptyString => []
  | String c rest =>
      match index_of c with
      | Some i => i :: key_indices rest
      | None => key_indices rest
      end
  end.

Fixpoint vigenere_text (keys : list nat) (mode : CipherMode) (n : nat)
  (text : string) : result string :=
  match text with
  | EmptyString => Ok EmptyString
  | String c rest =>
      if isalpha c then
        match nth_error keys (n mod List.length keys)%nat with
        | None => Throw (out_of_range "key")
        | Some k =>
            c' <- shift_letter (match mode with
                                | Encrypt => k
                                | Decrypt => (26 - k)%nat
                                end) c ;;
            rest' <- vigenere_text keys mode (S n) rest ;;
            Ok (String c' rest')
        end
      else
        rest' <- vigenere_text keys mode n rest ;;
        Ok (String c rest')
  end.

Definition build_vigenere (key : string) : result Cipher :=
  match key_indices key with
  | [] => Throw (InvalidKey "Vigenere cipher requires a key with a letter")
  | keys =>
      Ok {| applyCipher := fun text mode => vigenere_text keys mode 0 text |}
  end.

(** Modelled from the spec: the Playfair square (PlayfairCipher.cpp is
    not among the sources).  Spec section 4.4: letters are taken in upper
    case with J written as I; the square holds the letters of the key in
    order, duplicates left out, then the remaining letters of the
    alphabet in order, 25 cells in five rows of five. *)
Definition merge_ij (c : ascii) : ascii :=
  if Ascii.eqb c "J" then "I"%char else c.

Definition normalise (c : ascii) : ascii := merge_ij (toupper c).

Fixpoint key_letters (key : string) : list ascii :=
  match key with
  | EmptyString => []
  | String c rest =>
      if isalpha c then normalise c :: key_letters rest else key_letters rest
  end.

(** The letters of [new], each placed behind [cells] unless it is there
    already. *)
Fixpoint place (cells new : list ascii) : list ascii :=
  match new with
  | [] => cells
  | c :: rest =>
      if existsb (Ascii.eqb c) cells then place cells rest
      else place (cells ++ [c])%list rest
  end.

Definition square_of (key : string) : list ascii :=
  place (place [] (key_letters key)) (map merge_ij alphabet).

(** Modelled from the spec: the digraphs of a text to encrypt.  Spec
    section 4.4: a pair of identical letters is split by a filler, X, or Q
    when the letters are X, and the pairing resumes at the second letter;
    a last letter left alone is completed by the filler. *)
Definition filler (c : ascii) : ascii :=
  if Ascii.eqb c "X" then "Q"%char else "X"%char.

Fixpoint digraphs (letters : list ascii) : list (ascii * ascii) :=
  match letters with
  | [] => []
  | a :: tail =>
      match tail with
      | [] => [(a, filler a)]
      | b :: rest =>
          if Ascii.eqb a b then (a, filler a) :: digraphs tail
          else (a, b) :: digraphs rest
      end
  end.

(** Modelled from the spec: the rule for one pair.  Spec section 4.4:
    same row, each letter becomes its right (encrypt) or left (decrypt)
    neighbour in the row; same column, the one below or above; otherwise
    each letter becomes the letter in its own row and the column of the
    other.  Rows and columns wrap modulo 5. *)
Definition substitute (square : list ascii) (mode : CipherMode)
  (two : ascii * ascii) : result (ascii * ascii) :=
  match position (fst two) square, position (snd two) square with
  | Some p1, Some p2 =>
      let r1 := (p1 / 5)%nat in let c1 := (p1 mod 5)%nat in
      let r2 := (p2 / 5)%nat in let c2 := (p2 mod 5)%nat in
      let step := match mode with Encrypt => 1%nat | Decrypt => 4%nat end in
      let '(q1, q2) :=
        if Nat.eqb r1 r2 then
          ((5 * r1 + (c1 + step) mod 5)%nat, (5 * r2 + (c2 + step) mod 5)%nat)
        else if Nat.eqb c1 c2 then
          ((5 * ((r1 + step) mod 5) + c1)%nat,
           (5 * ((r2 + step) mod 5) + c2)%nat)
        else ((5 * r1 + c2)%nat, (5 * r2 + c1)%nat) in
      match nth_error square q1, nth_error square q2 with
      | Some x, Some y => Ok (x, y)
      | _, _ => Throw (out_of_range "square")
      end
  | _, _ => Throw (out_of_range "square")
  end.

(** The letters of a text, normalised.  Section 4.1 lets a cipher reject
    what is not a letter: this one does, a pair needing two letters. *)
Fixpoint text_letters (text : string) : result (list ascii) :=
  match text with
  | EmptyString => Ok []
  | String c rest =>
      if isalpha c then
        letters <- text_letters rest ;; Ok (normalise c :: letters)
      else Throw (other_exception "not a letter")
  end.

Fixpoint substitute_all (square : list ascii) (mode : CipherMode)
  (pairs : list (ascii * ascii)) : result string :=
  match pairs with
  | [] => Ok EmptyString
  | two :: rest =>
      xy <- substitute square mode two ;;
      out <- substitute_all square mode rest ;;
      Ok (String (fst xy) (String (snd xy) out))
  end.

(** Modelled from the spec: the pairs of a text to decrypt.  Spec section
    4.4: the text is taken two letters at a time as received.  The spec
    does not say what becomes of a last letter left alone; here it is
    handed back as it is. *)
Fixpoint fixed_pairs (letters : list ascii)
  : list (ascii * ascii) * list ascii :=
  match letters with
  | a :: b :: rest =>
      let '(pairs, alone) := fixed_pairs rest in ((a, b) :: pairs, alone)
  | alone => ([], alone)
  end.

(** Modelled from the spec: [PlayfairCipher::applyCipher]
    (PlayfairCipher.cpp is not among the sources), spec section 4.4. *)
Definition playfair_text (square : list ascii) (mode : CipherMode)
  (text : string) : result string :=
  letters <- text_letters text ;;
  match mode with
  | Encrypt => substitute_all square mode (digraphs letters)
  | Decrypt =>
      let '(pairs, alone) := fixed_pairs letters in
      out <- substitute_all square mode pairs ;;
      Ok (out ++ string_of_list_ascii alone)
  end.

(** Modelled from the spec: the constructor of the Playfair variant.
    Spec section 4.4: a key with no letter in it is an invalid key.  The
    wording of the explanation is not fixed by the spec. *)
Definition build_playfair (key : string) : result Cipher :=
  match key_letters key with
  | [] => Throw (InvalidKey "Playfair cipher requires a key with a letter")
  | _ =>
      Ok {| applyCipher := fun text mode =>
              playfair_text (square_of key) mode text |}
  end.

(** Modelled from the spec: the factory (CipherFactory.cpp is not among
    the sources).  Spec section 4.6: [build] calls the constructor of the
    variant asked for and lets its failure through as it is. *)
Definition build (type : CipherType) (key : string) : result (option Cipher) :=
  match type with
  | Caesar => cipher <- build_caesar key ;; Ok (Some cipher)
  | Playfair => cipher <- build_playfair key ;; Ok (Some cipher)
  | Vigenere => cipher <- build_vigenere key ;; Ok (Some cipher)
  end.

End Variants.

(** ** Vocabulary for the statements *)

(** The futures in the vector once the loop of lines 137-144 is over. *)
Definition launched (run : Z -> Z -> result string) (inputLength : Z)
  : list future :=
  map (fun i => async run (segment_first inputLength i)
                          (segment_len inputLength i))
      [0; 1; 2; 3].

(** The launches as they show in the trace. *)
Definition launches (inputLength : Z) : list event :=
  map (fun i => Async (segment_first inputLength i) (segment_len inputLength i))
      [0; 1; 2; 3].

(** Position [p] of the text belongs to the range asked of task [i]. *)
Definition in_range (inputLength i p : Z) : Prop :=
  segment_first inputLength i <= p
  < segment_first inputLength i + segment_len inputLength i.

(** The pieces of [inputText] the four tasks work on, in range order. *)
Definition pieces (inputText : string) : list (result string) :=
  map (fun i => substr inputText (segment_first (size inputText) i)
                                 (segment_len (size inputText) i))
      [0; 1; 2; 3].

(** The split as spec section 4.7 words it: ranges of [floor(len/N)]
    characters laid end to end, so that range [i] starts where range
    [i - 1] stops; the last one takes the remainder as well. *)
Definition contiguous_first (inputLength i : Z) : Z :=
  i * (inputLength / numThreads).

Definition contiguous_pieces (inputText : string) : list (result string) :=
  map (fun i => substr inputText (contiguous_first (size inputText) i)
                                 (segment_len (size inputText) i))
      [0; 1; 2; 3].

(** The single pass spec section 8 compares the dispatcher with: line 160
    applied to the Caesar text. *)
Definition sequential (cipher : Cipher) (mode : CipherMode)
  (inputText : string) : result string :=
  applyCipher cipher inputText mode.

(** Gluing the pieces back together, first piece first. *)
Fixpoint glue (parts : list (result string)) : result string :=
  match parts with
  | [] => Ok ""
  | part :: rest => s <- part ;; t <- glue rest ;; Ok (s ++ t)
  end.

(** What the vector of futures holds for the collecting loop, were every
    future ready at once: the strings in order behind [outputText], or
    the first exception met. *)
Fixpoint gather (futures : list future) (outputText : string)
  : result string :=
  match futures with
  | [] => Ok outputText
  | elem :: rest => s <- get elem ;; gather rest (outputText ++ s)
  end.

(** Two states that differ at most in what went to [std::cout]. *)
Definition same_but_cout (a b : State) : Prop :=
  cerr a = cerr b /\ files a = files b /\ trace a = trace b.

(** The ways through [main] that end in a [return]. *)
Inductive path : Type :=
| HelpRequested
| VersionRequested
| TextWritten
| MissingArg
| UnknownArg
| UnreadableInput
| InvalidKeyGiven
| NullCipher
| UnwritableOutput.

(** The command line was understood, neither help nor version was asked
    for, and the input was read as [inputText]. *)
Definition reaches_cipher (E : Env) (args : list string)
  (settings : ProgramSettings) (inputText : string) : Prop :=
  processCommandLine E args default_settings = Ok settings /\
  helpRequested settings = false /\
  versionRequested settings = false /\
  read_input E settings = Some inputText.

(** Moreover a cipher was built and the text went through it, giving
    [outputText]. *)
Definition reaches_output (fuel : nat) (E : Env) (args : list string)
  (settings : ProgramSettings) (outputText : string) : Prop :=
  exists inputText cipher st,
    reaches_cipher E args settings inputText /\
    cipherFactory E (cipherType settings) (cipherKey settings)
    = Ok (Some cipher) /\
    process fuel E cipher settings inputText start = Some (Ok outputText, st).

(** When [main], run in [E] on [args], goes which way. *)
Definition takes (fuel : nat) (E : Env) (args : list string) (p : path)
  : Prop :=
  match p with
  | MissingArg =>
      exists msg,
        processCommandLine E args default_settings = Throw (MissingArgument msg)
  | UnknownArg =>
      exists msg,
        processCommandLine E args default_settings = Throw (UnknownArgument msg)
  | HelpRequested =>
      exists settings,
        processCommandLine E args default_settings = Ok settings /\
        helpRequested settings = true
  | VersionRequested =>
      exists settings,
        processCommandLine E args default_settings = Ok settings /\
        helpRequested settings = false /\ versionRequested settings = true
  | UnreadableInput =>
      exists settings,
        processCommandLine E args default_settings = Ok settings /\
        helpRequested settings = false /\ versionRequested settings = false /\
        empty (inputFile settings) = false /\
        ifstream E (inputFile settings) = None
  | InvalidKeyGiven =>
      exists settings inputText msg,
        reaches_cipher E args settings inputText /\
        cipherFactory E (cipherType settings) (cipherKey settings)
        = Throw (InvalidKey msg)
  | NullCipher =>
      exists settings inputText,
        reaches_cipher E args settings inputText /\
        cipherFactory E (cipherType settings) (cipherKey settings) = Ok None
  | UnwritableOutput =>
      exists settings outputText,
        reaches_output fuel E args settings outputText /\
        empty (outputFile settings) = false /\
        ofstream_good E (outputFile settings) = false
  | TextWritten =>
      exists settings outputText,
        reaches_output fuel E args settings outputText /\
        (empty (outputFile settings) = true \/
         ofstream_good E (outputFile settings) = true)
  end.

(** A cipher that, in [mode], turns every character into [f] of it, the
    neighbours playing no part. *)
Definition charwise (cipher : Cipher) (mode : CipherMode)
  (f : ascii -> ascii) : Prop :=
  forall text, applyCipher cipher text mode = Ok (map_string f text).

(** The positions of a text of [inputLength] characters that lie between
    two ranges. *)
Definition skipped (inputLength p : Z) : Prop :=
  (2 <= inputLength mod 4 /\ p = 2 * (inputLength / 4)) \/
  (inputLength mod 4 = 3 /\ p = 3 * (inputLength / 4) + 1).

(** [n] copies of [s], one after the other. *)
Fixpoint repeat_string (n : nat) (s : string) : string :=
  match n with
  | O => ""
  | S n' => s ++ repeat_string n' s
  end.

(** The environment [E] with the futures observed as [polls] says. *)
Definition with_polls (E : Env) (polls : nat -> nat -> future_status) : Env :=
  {| processCommandLine := processCommandLine E;
     transformChar := transformChar E;
     cipherFactory := cipherFactory E;
     ifstream := ifstream E;
     cin := cin E;
     ofstream_good := ofstream_good E;
     wait_for := polls |}.

(** An environment with one readable file, in.txt, and one writable
    file, out.txt, in which the command line has been read as [settings],
    the factory hands out [cipher] whatever is asked, and every future is
    ready at the first poll. *)
Definition desk (settings : ProgramSettings) (stdin : string)
  (cipher : Cipher) : Env :=
  {| processCommandLine := fun _ _ => Ok settings;
     transformChar := upper_letters;
     cipherFactory := fun _ _ => Ok (Some cipher);
     ifstream := fun name =>
       if String.eqb name "in.txt" then Some "from a file" else None;
     cin := stdin;
     ofstream_good := fun name => String.eqb name "out.txt";
     wait_for := prompt |}.

(** A cipher that is not one of the three variants: it gives the text back
    to front, and refuses a text that holds anything but letters. *)
Definition mirror : Cipher :=
  {| applyCipher := fun text _ =>
       if letters_only text then
         Ok (string_of_list_ascii (rev (list_ascii_of_string text)))
       else Throw (other_exception text) |}.

(** The strings of a list put end to end. *)
Fixpoint flatten (parts : list string) : string :=
  match parts with
  | [] => ""
  | part :: rest => part ++ flatten rest
  end.

(** The characters of a stream that formatted extraction hands over:
    all but white space, in the order of the stream. *)
Definition extracted (stream : string) : list ascii :=
  filter (fun c => negb (isspace c)) (list_ascii_of_string stream).

(* ===================================================================== *)
(** * Part II: properties *)
(* ===================================================================== *)

(** ** Arithmetic *)

Lemma modulus_pos : 0 < SizeT.modulus.
Proof. reflexivity. Qed.

Lemma wrap_small z : 0 <= z <= SizeT.max -> SizeT.wrap z = z.
Proof. unfold SizeT.wrap, SizeT.max. intros H. apply Z.mod_small. lia. Qed.

Lemma wrap_range z : 0 <= SizeT.wrap z <= SizeT.max.
Proof.
  unfold SizeT.wrap, SizeT.max.
  pose proof (Z.mod_pos_bound z SizeT.modulus modulus_pos). lia.
Qed.

Lemma thread_index (i : Z) :
  0 <= i < numThreads -> i = 0 \/ i = 1 \/ i = 2 \/ i = 3.
Proof. unfold numThreads. lia. Qed.

(** One goal per value of the loop counter. *)
Ltac each_thread i Hi :=
  destruct (thread_index i Hi) as [-> | [-> | [-> | ->]]].

(** ** Strings *)

Lemma bind_Ok_inv {A B} (r : result A) (k : A -> result B) b :
  bind r k = Ok b -> exists a, r = Ok a /\ k a = Ok b.
Proof. destruct r as [a|e]; simpl; [eauto | discriminate]. Qed.

Lemma bind_Throw_inv {A B} (r : result A) (k : A -> result B) e :
  bind r k = Throw e -> r = Throw e \/ exists a, r = Ok a /\ k a = Throw e.
Proof. destruct r as [a|e']; simpl; [eauto | intros [= ->]; auto]. Qed.

Lemma length_substring (s : string) (n m : nat) :
  String.length (substring n m s) = Nat.min m (String.length s - n).
Proof.
  revert n m. induction s as [|c s IH]; intros n m.
  - destruct n, m; reflexivity.
  - destruct n as [|n].
    + destruct m as [|m]; simpl; [reflexivity|].
      rewrite IH. rewrite Nat.sub_0_r. reflexivity.
    + simpl. apply IH.
Qed.

Lemma substring_whole (s : string) (m : nat) :
  (String.length s <= m)%nat -> substring 0 m s = s.
Proof.
  revert m. induction s as [|c s IH]; intros m H.
  - destruct m; reflexivity.
  - destruct m as [|m]; simpl in H; [lia|]. simpl. f_equal. apply IH. lia.
Qed.

(** Two adjacent ranges glue into one. *)
Lemma substring_glue (s : string) (n a b : nat) :
  substring n a s ++ substring (n + a) b s = substring n (a + b) s.
Proof.
  revert n a b. induction s as [|c s IH]; intros n a b.
  - destruct n, a, b; reflexivity.
  - destruct n as [|n].
    + destruct a as [|a]; simpl.
      * reflexivity.
      * f_equal. apply (IH 0%nat a b).
    + simpl. apply IH.
Qed.

Lemma append_empty_r (s : string) : s ++ "" = s.
Proof. induction s as [|c s IH]; simpl; [reflexivity | now rewrite IH]. Qed.

Lemma append_assoc (s t u : string) : (s ++ t) ++ u = s ++ (t ++ u).
Proof. induction s as [|c s IH]; simpl; [reflexivity | now rewrite IH]. Qed.

Lemma length_append (s t : string) :
  String.length (s ++ t) = (String.length s + String.length t)%nat.
Proof. induction s as [|c s IH]; simpl; [reflexivity | now rewrite IH]. Qed.

Lemma letters_only_substring (s : string) (n m : nat) :
  letters_only s = true -> letters_only (substring n m s) = true.
Proof.
  revert n m. induction s as [|c s IH]; intros n m H.
  - destruct n, m; reflexivity.
  - simpl in H. apply andb_true_iff in H as [Hc Hs].
    destruct n as [|n].
    + destruct m as [|m]; simpl; [reflexivity|].
      rewrite Hc. simpl. apply IH, Hs.
    + simpl. apply IH, Hs.
Qed.

Lemma size_nonneg (s : string) : 0 <= size s.
Proof. unfold size. lia. Qed.

Lemma substr_in_range (s : string) (pos count : Z) :
  pos <= size s ->
  substr s pos count = Ok (substring (Z.to_nat pos) (Z.to_nat count) s).
Proof.
  intros H. unfold substr.
  destruct (Z.ltb_spec (size s) pos); [lia | reflexivity].
Qed.

(** ** The ranges handed to the tasks *)

(** As long as [3 * inputLength] fits a [size_t], no product wraps and
    the start of range [i] is the integer quotient of [i * inputLength]
    by 4. *)
Lemma segment_first_exact (inputLength i : Z) :
  0 <= inputLength -> 3 * inputLength <= SizeT.max ->
  0 <= i < numThreads ->
  segment_first inputLength i = i * inputLength / 4.
Proof.
  intros Hlen Hfit Hi. unfold segment_first, SizeT.div, SizeT.mul, numThreads.
  rewrite wrap_small; [reflexivity|].
  each_thread i Hi; lia.
Qed.

Lemma segment_len_inner (inputLength i : Z) :
  0 <= i < numThreads - 1 -> segment_len inputLength i = inputLength / 4.
Proof.
  intros Hi. unfold segment_len, numThreads in *.
  destruct (Z.eqb_spec i (4 - 1)); [lia | reflexivity].
Qed.

Lemma segment_len_last (inputLength : Z) :
  0 <= inputLength <= SizeT.max ->
  segment_len inputLength 3 = inputLength / 4 + inputLength mod 4.
Proof.
  intros H. unfold segment_len, numThreads, SizeT.add, SizeT.div, SizeT.rem.
  simpl. apply wrap_small. unfold SizeT.max, SizeT.modulus, SizeT.bits in *.
  Z.to_euclidean_division_equations. lia.
Qed.

(** The start of a range never lies beyond the end of the text, wrapped
    product or not. *)
Lemma segment_first_le_size (inputLength i : Z) :
  0 <= inputLength -> 0 <= i < numThreads ->
  segment_first inputLength i <= inputLength.
Proof.
  intros Hlen Hi. unfold segment_first, SizeT.div, SizeT.mul, numThreads.
  pose proof (wrap_range (i * inputLength)) as Hw.
  destruct (Z_le_gt_dec (3 * inputLength) SizeT.max) as [Hfit|Hbig].
  - rewrite wrap_small.
    + each_thread i Hi;
        Z.to_euclidean_division_equations; lia.
    + each_thread i Hi; lia.
  - unfold SizeT.max, SizeT.modulus, SizeT.bits in *.
    Z.to_euclidean_division_equations. lia.
Qed.

Lemma launch_loop_all (run : Z -> Z -> result string) (inputLength : Z)
  (st : State) :
  launch_loop (Z.to_nat numThreads) 0 run inputLength [] st =
  (launched run inputLength,
   fold_left (fun acc ev => record ev acc) (launches inputLength) st).
Proof. reflexivity. Qed.

Lemma length_launched run inputLength :
  List.length (launched run inputLength) = 4%nat.
Proof. reflexivity. Qed.

Lemma trace_launches (inputLength : Z) (st : State) :
  trace (fold_left (fun acc ev => record ev acc) (launches inputLength) st)
  = (trace st ++ launches inputLength)%list.
Proof. simpl. rewrite <- !List.app_assoc. reflexivity. Qed.

(** C9.  For a text whose length times three fits a [size_t], each of the
    first three ranges ends at [floor(i*len/4) + floor(len/4)], which is
    at most the start [floor((i+1)*len/4)] of the next one; hence no
    position of the text belongs to the ranges of two different tasks.
    Nothing is said about positions between two ranges. *)
Theorem ranges_never_overlap (inputText : string) :
  3 * size inputText <= SizeT.max ->
  (forall i, 0 <= i < numThreads - 1 ->
     segment_first (size inputText) (i + 1) = (i + 1) * size inputText / 4 /\
     segment_first (size inputText) i + segment_len (size inputText) i
       = i * size inputText / 4 + size inputText / 4 /\
     segment_first (size inputText) i + segment_len (size inputText) i
       <= segment_first (size inputText) (i + 1)) /\
  (forall i j p, 0 <= i < j -> j < numThreads ->
     in_range (size inputText) i p -> in_range (size inputText) j p -> False).
Proof.
  intros Hfit. pose proof (size_nonneg inputText) as Hlen.
  set (len := size inputText) in *.
  assert (Hstep : forall i, 0 <= i < numThreads - 1 ->
            segment_first len i + segment_len len i
            <= segment_first len (i + 1)).
  { intros i Hi. unfold numThreads in Hi.
    rewrite !segment_first_exact by (unfold numThreads; lia).
    rewrite segment_len_inner by (unfold numThreads; lia).
    assert (i = 0 \/ i = 1 \/ i = 2) as [-> | [-> | ->]] by lia;
      Z.to_euclidean_division_equations; lia. }
  assert (Hmono : forall i, 0 <= i < numThreads - 1 ->
            segment_first len i <= segment_first len (i + 1)).
  { intros i Hi. specialize (Hstep i Hi).
    rewrite segment_len_inner in Hstep by exact Hi.
    assert (0 <= len / 4) by (apply Z.div_pos; lia). lia. }
  split.
  - intros i Hi. split; [|split].
    + apply segment_first_exact; unfold numThreads in *; lia.
    + rewrite segment_first_exact by (unfold numThreads in *; lia).
      rewrite segment_len_inner by exact Hi. reflexivity.
    + apply Hstep, Hi.
  - intros i j p Hij Hj [_ Hpi] [Hpj _]. unfold numThreads in *.
    pose proof (Hstep 0 ltac:(unfold numThreads; lia)) as S0.
    pose proof (Hstep 1 ltac:(unfold numThreads; lia)) as S1.
    pose proof (Hstep 2 ltac:(unfold numThreads; lia)) as S2.
    pose proof (Hmono 0 ltac:(unfold numThreads; lia)) as M0.
    pose proof (Hmono 1 ltac:(unfold numThreads; lia)) as M1.
    pose proof (Hmono 2 ltac:(unfold numThreads; lia)) as M2.
    change (0 + 1) with 1 in *. change (1 + 1) with 2 in *.
    change (2 + 1) with 3 in *.
    assert (i = 0 \/ i = 1 \/ i = 2) as [-> | [-> | ->]] by lia;
      assert (j = 1 \/ j = 2 \/ j = 3) as [-> | [-> | ->]] by lia;
      lia.
Qed.

Lemma ranges_never_overlap_witness :
  3 * size "HELLOWORLD" <= SizeT.max /\
  segment_first (size "HELLOWORLD") 1 + segment_len (size "HELLOWORLD") 1
  <= segment_first (size "HELLOWORLD") (1 + 1).
Proof.
  assert (H : 3 * size "HELLOWORLD" <= SizeT.max) by (vm_compute; discriminate).
  split; [exact H|].
  apply (proj1 (ranges_never_overlap "HELLOWORLD" H) 1).
  unfold numThreads. lia.
Defined.

(** ** Waiting for the futures *)

Lemma same_but_cout_refl st : same_but_cout st st.
Proof. repeat split. Qed.

Lemma same_but_cout_trans a b c :
  same_but_cout a b -> same_but_cout b c -> same_but_cout a c.
Proof.
  intros (H1 & H2 & H3) (K1 & K2 & K3).
  repeat split; congruence.
Qed.

Lemma same_but_cout_to_cout s st : same_but_cout st (to_cout s st).
Proof. repeat split. Qed.

Create HintDb wait.
#[local] Hint Resolve same_but_cout_refl same_but_cout_to_cout : wait.

(** The polling loop is left at a poll that reports [ready], and at no
    earlier one. *)
Lemma wait_loop_leaves_when_ready fuel status :
  forall k st st',
    wait_loop fuel status k st = Some st' ->
    same_but_cout st st' /\
    exists d, (d < fuel)%nat /\ status (k + d)%nat = ready /\
              forall j, (j < d)%nat -> status (k + j)%nat <> ready.
Proof.
  induction fuel as [|fuel IH]; intros k st st' H; simpl in H; [discriminate|].
  destruct (status k) eqn:Hk.
  - injection H as <-. split; [auto with wait|].
    exists 0%nat. rewrite Nat.add_0_r. repeat split; [lia | assumption | lia].
  - apply IH in H as (Hsame & d & Hd & Hready & Hbefore).
    split; [eapply same_but_cout_trans; eauto with wait|].
    exists (S d). rewrite Nat.add_succ_r. repeat split; [lia | assumption |].
    intros [|j] Hj.
    + rewrite Nat.add_0_r, Hk. discriminate.
    + rewrite Nat.add_succ_r. apply Hbefore. lia.
  - apply IH in H as (Hsame & d & Hd & Hready & Hbefore).
    split; [assumption|].
    exists (S d). rewrite Nat.add_succ_r. repeat split; [lia | assumption |].
    intros [|j] Hj.
    + rewrite Nat.add_0_r, Hk. discriminate.
    + rewrite Nat.add_succ_r. apply Hbefore. lia.
Qed.

(** However many polls fail before, a poll that reports [ready] within
    reach of the fuel ends the loop normally. *)
Lemma wait_loop_finds_ready fuel status :
  forall k st d,
    status (k + d)%nat = ready -> (d < fuel)%nat ->
    exists st', wait_loop fuel status k st = Some st'.
Proof.
  induction fuel as [|fuel IH]; intros k st d Hready Hd; [lia|].
  simpl. destruct (status k) eqn:Hk; [eauto | |].
  - destruct d as [|d]; [rewrite Nat.add_0_r in Hready; congruence|].
    apply (IH (S k) _ d); [now rewrite Nat.add_succ_r in Hready | lia].
  - destruct d as [|d]; [rewrite Nat.add_0_r in Hready; congruence|].
    apply (IH (S k) _ d); [now rewrite Nat.add_succ_r in Hready | lia].
Qed.

(** While no poll reports [ready] the loop keeps turning. *)
Lemma wait_loop_keeps_waiting fuel status :
  forall k st,
    (forall j, (j < fuel)%nat -> status (k + j)%nat <> ready) ->
    wait_loop fuel status k st = None.
Proof.
  induction fuel as [|fuel IH]; intros k st H; [reflexivity|].
  simpl. pose proof (H 0%nat ltac:(lia)) as H0. rewrite Nat.add_0_r in H0.
  destruct (status k); [congruence | |];
    apply IH; intros j Hj; rewrite Nat.add_succ_l, <- Nat.add_succ_r;
    apply H; lia.
Qed.

Lemma collect_loop_result fuel poll futures :
  forall n outputText st r st',
    collect_loop fuel poll n futures outputText st = Some (r, st') ->
    r = gather futures outputText /\ same_but_cout st st'.
Proof.
  induction futures as [|elem rest IH]; intros n outputText st r st' H;
    simpl in H.
  - injection H as <- <-. split; [reflexivity | auto with wait].
  - destruct (wait_loop fuel (poll n) 0 st) as [st1|] eqn:Hw; [|discriminate].
    apply wait_loop_leaves_when_ready in Hw as [Hsame _].
    simpl. destruct (get elem) as [s|e].
    + apply IH in H as [-> Hs]. split; [reflexivity|].
      eapply same_but_cout_trans; eauto.
    + injection H as <- <-. split; [reflexivity | assumption].
Qed.

Lemma collect_loop_completes fuel poll (delay : nat -> nat) futures :
  forall n outputText st,
    (forall m, (n <= m < n + List.length futures)%nat ->
               poll m (delay m) = ready /\ (delay m < fuel)%nat) ->
    exists st',
      collect_loop fuel poll n futures outputText st
      = Some (gather futures outputText, st').
Proof.
  induction futures as [|elem rest IH]; intros n outputText st H; simpl.
  - eauto.
  - destruct (H n) as [Hready Hfuel]; [simpl; lia|].
    destruct (wait_loop_finds_ready fuel (poll n) 0 st (delay n) Hready Hfuel)
      as [st1 ->].
    destruct (get elem) as [s|e]; simpl; [|eauto].
    apply IH. intros m Hm. apply H. simpl. lia.
Qed.

(** The collecting loop gets past a future only by polling it until a
    poll reports [ready]: if the loop is over, every future it came to,
    that is every future all of whose predecessors held a string, was
    seen ready within the polls made, and by none of the polls before. *)
Lemma collect_loop_polls fuel poll futures :
  forall n outputText st r st',
    collect_loop fuel poll n futures outputText st = Some (r, st') ->
    forall i elem,
      nth_error futures i = Some elem ->
      (forall m before, (m < i)%nat -> nth_error futures m = Some before ->
                        exists s, get before = Ok s) ->
      exists d, (d < fuel)%nat /\ poll (n + i)%nat d = ready /\
                forall j, (j < d)%nat -> poll (n + i)%nat j <> ready.
Proof.
  induction futures as [|elem0 rest IH];
    intros n outputText st r st' H i elem Hi Hbefore.
  - destruct i; discriminate.
  - simpl in H.
    destruct (wait_loop fuel (poll n) 0 st) as [st1|] eqn:Hw; [|discriminate].
    destruct i as [|i].
    + apply wait_loop_leaves_when_ready in Hw as [_ (d & Hd & Hready & Hnot)].
      rewrite Nat.add_0_r. exists d. auto.
    + destruct (Hbefore 0%nat elem0 ltac:(lia) eq_refl) as [s Hs].
      rewrite Hs in H.
      destruct (IH (S n) _ _ _ _ H i elem Hi) as (d & Hd & Hready & Hnot).
      * intros m before Hm Hnth. apply (Hbefore (S m)); [lia | exact Hnth].
      * rewrite Nat.add_succ_r. exists d. auto.
Qed.

Lemma nth_error_launched (run : Z -> Z -> result string) (inputLength : Z)
  (n : nat) :
  (n < 4)%nat ->
  nth_error (launched run inputLength) n
  = Some (async run (segment_first inputLength (Z.of_nat n))
                    (segment_len inputLength (Z.of_nat n))).
Proof.
  intros Hn. destruct n as [|[|[|[|n]]]]; [reflexivity.. | lia].
Qed.

(** The Caesar branch is over only when each future it came to has been
    seen ready. *)
Lemma dispatch_polls fuel poll cipher mode inputText st r st' (n : nat) :
  dispatch fuel poll cipher mode inputText st = Some (r, st') ->
  (n < 4)%nat ->
  (forall m, (m < n)%nat ->
     exists s,
       fn cipher inputText mode (segment_first (size inputText) (Z.of_nat m))
          (segment_len (size inputText) (Z.of_nat m)) = Ok s) ->
  exists d, (d < fuel)%nat /\ poll n d = ready /\
            forall j, (j < d)%nat -> poll n j <> ready.
Proof.
  intros H Hn Hbefore. unfold dispatch in H. rewrite launch_loop_all in H.
  apply (collect_loop_polls _ _ _ _ _ _ _ _ H n _
           (nth_error_launched _ _ n Hn)).
  intros m before Hm Hnth.
  rewrite nth_error_launched in Hnth by lia. injection Hnth as <-.
  exact (Hbefore m Hm).
Qed.

Lemma gather_launched_Ok (run : Z -> Z -> result string) (len : Z) out :
  gather (launched run len) "" = Ok out ->
  forall m, (m < 4)%nat ->
    exists s, run (segment_first len (Z.of_nat m))
                  (segment_len len (Z.of_nat m)) = Ok s.
Proof.
  unfold launched. simpl. unfold get. simpl.
  destruct (run (segment_first len 0) _) as [s0|] eqn:H0; simpl;
    [|discriminate].
  destruct (run (segment_first len 1) _) as [s1|] eqn:H1; simpl;
    [|discriminate].
  destruct (run (segment_first len 2) _) as [s2|] eqn:H2; simpl;
    [|discriminate].
  destruct (run (segment_first len 3) _) as [s3|] eqn:H3; simpl;
    [|discriminate].
  intros _ m Hm. destruct m as [|[|[|[|m]]]]; simpl; eauto. lia.
Qed.

(** C6.  Whatever the polls of the four futures observe, (1) the
    collection, once over, yields exactly what the four tasks left behind,
    with nothing sent to the error stream and no file touched: time-outs
    are never turned into a failure and no task is dropped; (2) it is
    over as soon as every task has been seen ready, whatever the number
    of polls that failed before; (3) the wait for one future ends at a poll
    reporting [ready] and at none before, and while no poll reports [ready]
    the wait goes on; (4) the collection is over only once every future it
    came to, the first one and each one whose predecessors all left a
    string, has been polled until a poll reported [ready]: in particular
    an output text is produced only after all four tasks were seen ready;
    (5) as long as such a future has not been seen ready the collection
    is not over, however many of its polls timed out. *)
Theorem timeouts_never_abandon_the_wait (cipher : Cipher) (mode : CipherMode)
  (inputText : string) (poll : nat -> nat -> future_status) (st : State) :
  (forall fuel r st',
     dispatch fuel poll cipher mode inputText st = Some (r, st') ->
     r = gather (launched (fn cipher inputText mode) (size inputText)) "" /\
     cerr st' = cerr st /\ files st' = files st) /\
  (forall (delay : nat -> nat) fuel,
     (forall n, (n < 4)%nat -> poll n (delay n) = ready /\ (delay n < fuel)%nat) ->
     exists st',
       dispatch fuel poll cipher mode inputText st
       = Some (gather (launched (fn cipher inputText mode) (size inputText)) "",
               st')) /\
  (forall fuel n k st0,
     (forall st1, wait_loop fuel (poll n) k st0 = Some st1 ->
        exists d, (d < fuel)%nat /\ poll n (k + d)%nat = ready /\
                  forall j, (j < d)%nat -> poll n (k + j)%nat <> ready) /\
     ((forall j, (j < fuel)%nat -> poll n (k + j)%nat <> ready) ->
      wait_loop fuel (poll n) k st0 = None)) /\
  (forall fuel r st',
     dispatch fuel poll cipher mode inputText st = Some (r, st') ->
     (forall n, (n < 4)%nat ->
        (forall m, (m < n)%nat ->
           exists s,
             fn cipher inputText mode
                (segment_first (size inputText) (Z.of_nat m))
                (segment_len (size inputText) (Z.of_nat m)) = Ok s) ->
        exists d, (d < fuel)%nat /\ poll n d = ready /\
                  forall j, (j < d)%nat -> poll n j <> ready) /\
     (forall out, r = Ok out ->
        forall n, (n < 4)%nat ->
          exists d, (d < fuel)%nat /\ poll n d = ready /\
                    forall j, (j < d)%nat -> poll n j <> ready)) /\
  (forall fuel n,
     (n < 4)%nat ->
     (forall m, (m < n)%nat ->
        exists s,
          fn cipher inputText mode
             (segment_first (size inputText) (Z.of_nat m))
             (segment_len (size inputText) (Z.of_nat m)) = Ok s) ->
     (forall j, (j < fuel)%nat -> poll n j <> ready) ->
     dispatch fuel poll cipher mode inputText st = None).
Proof.
  split; [|split; [|split; [|split]]].
  - intros fuel r st' H. unfold dispatch in H.
    rewrite launch_loop_all in H.
    apply collect_loop_result in H as [-> (Herr & Hfiles & _)].
    repeat split; symmetry; assumption.
  - intros delay fuel H. unfold dispatch. rewrite launch_loop_all.
    apply (collect_loop_completes fuel poll delay).
    intros m Hm. apply H. rewrite length_launched in Hm. lia.
  - intros fuel n k st0. split.
    + intros st1 H. apply wait_loop_leaves_when_ready in H as [_ H]. exact H.
    + apply wait_loop_keeps_waiting.
  - intros fuel r st' H. split.
    + intros n Hn Hbefore. exact (dispatch_polls _ _ _ _ _ _ _ _ n H Hn Hbefore).
    + intros out -> n Hn. apply (dispatch_polls _ _ _ _ _ _ _ _ n H Hn).
      intros m Hm. pose proof H as Hg. unfold dispatch in Hg.
      rewrite launch_loop_all in Hg. apply collect_loop_result in Hg as [Hg _].
      symmetry in Hg. apply (gather_launched_Ok _ _ _ Hg). lia.
  - intros fuel n Hn Hbefore Hnever.
    destruct (dispatch fuel poll cipher mode inputText st) as [[r st']|] eqn:H;
      [|reflexivity].
    destruct (dispatch_polls _ _ _ _ _ _ _ _ n H Hn Hbefore)
      as (d & Hd & Hready & _).
    destruct (Hnever d Hd Hready).
Qed.

Lemma timeouts_never_abandon_the_wait_witness :
  (forall n, (n < 4)%nat ->
     sluggish n (n + 2)%nat = ready /\ (n + 2 < 6)%nat) /\
  (exists st',
     dispatch 6 sluggish (caesar 3) Encrypt "HELLO" start
     = Some (gather (launched (fn (caesar 3) "HELLO" Encrypt) (size "HELLO")) "",
             st')) /\
  (forall j, (j < 2)%nat -> sluggish 0 j <> ready) /\
  dispatch 2 sluggish (caesar 3) Encrypt "HELLO" start = None.
Proof.
  assert (H : forall n, (n < 4)%nat ->
            sluggish n (n + 2)%nat = ready /\ (n + 2 < 6)%nat).
  { intros n Hn. split; [|lia]. unfold sluggish.
    destruct (Nat.ltb_spec (n + 2) (n + 2)); [lia | reflexivity]. }
  assert (H0 : forall j, (j < 2)%nat -> sluggish 0 j <> ready).
  { intros j Hj. unfold sluggish. simpl.
    destruct (Nat.ltb_spec j 2); [discriminate | lia]. }
  split; [exact H | split; [|split; [exact H0|]]].
  - exact (proj1 (proj2 (timeouts_never_abandon_the_wait
                           (caesar 3) Encrypt "HELLO" sluggish start))
             (fun n => (n + 2)%nat) 6%nat H).
  - apply (proj2 (proj2 (proj2 (proj2 (timeouts_never_abandon_the_wait
                           (caesar 3) Encrypt "HELLO" sluggish start))))
             2%nat 0%nat); [lia | intros m Hm; lia | exact H0].
Defined.

(** ** Which ciphers are dispatched *)

Lemma CipherType_eqb_spec (a b : CipherType) :
  reflect (a = b) (CipherType_eqb a b).
Proof. destruct a, b; simpl; constructor; congruence. Qed.

(** C5.  With the Caesar cipher, [main] hands the text to exactly four
    tasks, one [std::async] call per range, and runs no [applyCipher] on
    its own context: once the results are collected the trace has grown by
    the four launches and nothing else.  With any other cipher no task is
    launched: [applyCipher] is called once, at once, on the whole text,
    and no waiting is involved. *)
Theorem dispatcher_only_for_caesar (fuel : nat) (E : Env) (cipher : Cipher)
  (settings : ProgramSettings) (inputText : string) (st : State) :
  (cipherType settings = Caesar ->
     process fuel E cipher settings inputText st
     = collect_loop fuel (wait_for E) 0
         (launched (fn cipher inputText (cipherMode settings)) (size inputText))
         "" (fold_left (fun acc ev => record ev acc)
                       (launches (size inputText)) st) /\
     List.length
       (launched (fn cipher inputText (cipherMode settings)) (size inputText))
     = 4%nat /\
     forall r st',
       process fuel E cipher settings inputText st = Some (r, st') ->
       trace st' = (trace st ++ launches (size inputText))%list) /\
  (cipherType settings <> Caesar ->
     process fuel E cipher settings inputText st
     = Some (applyCipher cipher inputText (cipherMode settings),
             record (Apply inputText (cipherMode settings)) st) /\
     trace (record (Apply inputText (cipherMode settings)) st)
     = (trace st ++ [Apply inputText (cipherMode settings)])%list).
Proof.
  unfold process.
  destruct (CipherType_eqb_spec (cipherType settings) Caesar) as [Heq|Hne].
  - split; [intros _ | intros H; contradiction].
    unfold dispatch. rewrite launch_loop_all.
    split; [reflexivity | split; [reflexivity|]].
    intros r st' H. apply collect_loop_result in H as [_ (_ & _ & Htr)].
    rewrite <- Htr. apply trace_launches.
  - split; [intros H; contradiction | intros _].
    split; reflexivity.
Qed.

Lemma dispatcher_only_for_caesar_witness :
  cipherType (with_key Caesar "3" Encrypt) = Caesar /\
  cipherType (with_key Vigenere "KEY" Encrypt) <> Caesar /\
  (forall r st',
     process 1 (terminal (with_key Caesar "3" Encrypt) "" prompt) (caesar 3)
       (with_key Caesar "3" Encrypt) "HELLO" start = Some (r, st') ->
     trace st' = (trace start ++ launches (size "HELLO"))%list) /\
  process 1 (terminal (with_key Vigenere "KEY" Encrypt) "" prompt) (caesar 3)
    (with_key Vigenere "KEY" Encrypt) "HELLO" start
  = Some (applyCipher (caesar 3) "HELLO" Encrypt,
          record (Apply "HELLO" Encrypt) start).
Proof.
  assert (H1 : cipherType (with_key Caesar "3" Encrypt) = Caesar)
    by reflexivity.
  assert (H2 : cipherType (with_key Vigenere "KEY" Encrypt) <> Caesar)
    by discriminate.
  split; [exact H1 | split; [exact H2 | split]].
  - exact (proj2 (proj2 (proj1 (dispatcher_only_for_caesar 1
             (terminal (with_key Caesar "3" Encrypt) "" prompt) (caesar 3)
             (with_key Caesar "3" Encrypt) "HELLO" start) H1))).
  - exact (proj1 (proj2 (dispatcher_only_for_caesar 1
             (terminal (with_key Vigenere "KEY" Encrypt) "" prompt) (caesar 3)
             (with_key Vigenere "KEY" Encrypt) "HELLO" start) H2)).
Defined.

(** ** Totality of the workers *)

Lemma fn_in_range (cipher : Cipher) (mode : CipherMode) (inputText : string)
  (i : Z) :
  0 <= i < numThreads ->
  fn cipher inputText mode (segment_first (size inputText) i)
     (segment_len (size inputText) i)
  = applyCipher cipher
      (substring (Z.to_nat (segment_first (size inputText) i))
                 (Z.to_nat (segment_len (size inputText) i)) inputText)
      mode.
Proof.
  intros Hi. unfold fn. rewrite substr_in_range; [reflexivity|].
  apply segment_first_le_size; [apply size_nonneg | exact Hi].
Qed.

Lemma gather_launched_Throw (run : Z -> Z -> result string) (len : Z) e :
  gather (launched run len) "" = Throw e ->
  exists i, 0 <= i < numThreads /\
            run (segment_first len i) (segment_len len i) = Throw e.
Proof.
  unfold launched, numThreads. simpl. unfold get. simpl.
  destruct (run (segment_first len 0) _) eqn:H0; simpl;
    [|intros [= <-]; exists 0; split; [lia | assumption]].
  destruct (run (segment_first len 1) _) eqn:H1; simpl;
    [|intros [= <-]; exists 1; split; [lia | assumption]].
  destruct (run (segment_first len 2) _) eqn:H2; simpl;
    [|intros [= <-]; exists 2; split; [lia | assumption]].
  destruct (run (segment_first len 3) _) eqn:H3; simpl;
    [discriminate | intros [= <-]; exists 3; split; [lia | assumption]].
Qed.

(** ** How [main] ends *)

Lemma main_reaches_cipher fuel E args settings inputText :
  reaches_cipher E args settings inputText ->
  main fuel E args = encipher fuel E settings inputText start.
Proof.
  intros (Hargs & Hhelp & Hversion & Hread). unfold main.
  rewrite Hargs, Hhelp, Hversion, Hread. reflexivity.
Qed.

Lemma read_input_None E settings :
  read_input E settings = None <->
  empty (inputFile settings) = false /\ ifstream E (inputFile settings) = None.
Proof.
  unfold read_input.
  destruct (empty (inputFile settings)); simpl.
  - split; [discriminate | intros [H _]; discriminate].
  - destruct (ifstream E (inputFile settings)).
    + split; [discriminate | intros [_ H]; discriminate].
    + split; auto.
Qed.

(** The factory modelled for the Caesar variant lets the failure of the
    constructor through as it is. *)
Lemma caesar_factory_lets_failure_through (key : string) (e : exn) :
  CaesarCipher key = Throw e -> caesar_factory Caesar key = Throw e.
Proof. intros H. simpl. rewrite H. reflexivity. Qed.

(** C3.  [InvalidKey] hands its message untouched to [what()].  When the
    factory raises [InvalidKey] with message [msg], [main] catches it and
    returns 1; the error stream holds the prefix "[error] Invalid key: "
    followed by [msg] as raised and a line end; nothing went to the
    standard output, no file was written and the cipher was never run. *)
Theorem invalid_key_reported_unchanged (fuel : nat) (E : Env)
  (args : list string) (settings : ProgramSettings) (inputText msg : string) :
  reaches_cipher E args settings inputText ->
  cipherFactory E (cipherType settings) (cipherKey settings)
  = Throw (InvalidKey msg) ->
  what (InvalidKey msg) = msg /\
  exists st,
    main fuel E args = Some (Return 1, st) /\
    cerr st = "[error] Invalid key: " ++ msg ++ endl /\
    cout st = "" /\ files st = [] /\ trace st = [].
Proof.
  intros Hreach Hfactory. split; [reflexivity|].
  rewrite (main_reaches_cipher fuel E args settings inputText Hreach).
  unfold encipher. rewrite Hfactory.
  eexists. split; [reflexivity|]. repeat split.
Qed.

Lemma invalid_key_reported_unchanged_witness :
  reaches_cipher (terminal (with_key Caesar "abc" Encrypt) "hello" prompt) []
    (with_key Caesar "abc" Encrypt) "HELLO" /\
  cipherFactory (terminal (with_key Caesar "abc" Encrypt) "hello" prompt)
    Caesar "abc"
  = Throw (InvalidKey "Caesar cipher requires an integer key") /\
  exists st,
    main 1 (terminal (with_key Caesar "abc" Encrypt) "hello" prompt) []
    = Some (Return 1, st) /\
    cerr st = "[error] Invalid key: "
              ++ "Caesar cipher requires an integer key" ++ endl /\
    cout st = "" /\ files st = [] /\ trace st = [].
Proof.
  assert (H1 : reaches_cipher
                 (terminal (with_key Caesar "abc" Encrypt) "hello" prompt) []
                 (with_key Caesar "abc" Encrypt) "HELLO")
    by (repeat split).
  assert (H2 : cipherFactory
                 (terminal (with_key Caesar "abc" Encrypt) "hello" prompt)
                 (cipherType (with_key Caesar "abc" Encrypt))
                 (cipherKey (with_key Caesar "abc" Encrypt))
               = Throw (InvalidKey "Caesar cipher requires an integer key"))
    by reflexivity.
  split; [exact H1 | split; [exact H2|]].
  exact (proj2 (invalid_key_reported_unchanged 1 _ [] _ _ _ H1 H2)).
Defined.

(** C8.  When the factory returns a null pointer without raising, [main]
    reports the problem on the error stream and returns 1: the cipher is
    not run, nothing goes to the standard output and no file is written. *)
Theorem null_cipher_is_fatal (fuel : nat) (E : Env) (args : list string)
  (settings : ProgramSettings) (inputText : string) :
  reaches_cipher E args settings inputText ->
  cipherFactory E (cipherType settings) (cipherKey settings) = Ok None ->
  exists st,
    main fuel E args = Some (Return 1, st) /\
    cerr st = "[error] problem constructing requested cipher" ++ endl /\
    cout st = "" /\ files st = [] /\ trace st = [].
Proof.
  intros Hreach Hfactory.
  rewrite (main_reaches_cipher fuel E args settings inputText Hreach).
  unfold encipher. rewrite Hfactory.
  eexists. split; [reflexivity|]. repeat split.
Qed.

Lemma null_cipher_is_fatal_witness :
  reaches_cipher (terminal (with_key Playfair "KEY" Encrypt) "hello" prompt) []
    (with_key Playfair "KEY" Encrypt) "HELLO" /\
  cipherFactory (terminal (with_key Playfair "KEY" Encrypt) "hello" prompt)
    Playfair "KEY" = Ok None /\
  exists st,
    main 1 (terminal (with_key Playfair "KEY" Encrypt) "hello" prompt) []
    = Some (Return 1, st) /\
    cerr st = "[error] problem constructing requested cipher" ++ endl /\
    cout st = "" /\ files st = [] /\ trace st = [].
Proof.
  assert (H1 : reaches_cipher
                 (terminal (with_key Playfair "KEY" Encrypt) "hello" prompt) []
                 (with_key Playfair "KEY" Encrypt) "HELLO")
    by (repeat split).
  assert (H2 : cipherFactory
                 (terminal (with_key Playfair "KEY" Encrypt) "hello" prompt)
                 (cipherType (with_key Playfair "KEY" Encrypt))
                 (cipherKey (with_key Playfair "KEY" Encrypt)) = Ok None)
    by reflexivity.
  split; [exact H1 | split; [exact H2|]].
  exact (null_cipher_is_fatal 1 _ [] _ _ H1 H2).
Defined.

Lemma takes_success fuel E args :
  takes fuel E args HelpRequested \/ takes fuel E args VersionRequested \/
  takes fuel E args TextWritten ->
  exists st, main fuel E args = Some (Return 0, st).
Proof.
  intros [H | [H | H]]; simpl in H.
  - destruct H as (settings & Hargs & Hhelp).
    unfold main. rewrite Hargs, Hhelp. eauto.
  - destruct H as (settings & Hargs & Hhelp & Hversion).
    unfold main. rewrite Hargs, Hhelp, Hversion. eauto.
  - destruct H as (settings & outputText & Hout & Hwrite).
    destruct Hout as (inputText & cipher & st & Hreach & Hfactory & Hprocess).
    rewrite (main_reaches_cipher fuel E args settings inputText Hreach).
    unfold encipher. rewrite Hfactory, Hprocess. unfold write_output.
    destruct Hwrite as [Hempty | Hgood].
    + rewrite Hempty. simpl. eauto.
    + destruct (empty (outputFile settings)); simpl; [eauto|].
      rewrite Hgood. eauto.
Qed.

Lemma takes_failure fuel E args :
  takes fuel E args MissingArg \/ takes fuel E args UnknownArg \/
  takes fuel E args UnreadableInput \/ takes fuel E args InvalidKeyGiven \/
  takes fuel E args NullCipher \/ takes fuel E args UnwritableOutput ->
  exists st, main fuel E args = Some (Return 1, st).
Proof.
  intros [H | [H | [H | [H | [H | H]]]]]; simpl in H.
  - destruct H as (msg & Hargs). unfold main. rewrite Hargs. eauto.
  - destruct H as (msg & Hargs). unfold main. rewrite Hargs. eauto.
  - destruct H as (settings & Hargs & Hhelp & Hversion & Hfile & Hstream).
    unfold main. rewrite Hargs, Hhelp, Hversion.
    rewrite (proj2 (read_input_None E settings) (conj Hfile Hstream)). eauto.
  - destruct H as (settings & inputText & msg & Hreach & Hfactory).
    rewrite (main_reaches_cipher fuel E args settings inputText Hreach).
    unfold encipher. rewrite Hfactory. eauto.
  - destruct H as (settings & inputText & Hreach & Hfactory).
    rewrite (main_reaches_cipher fuel E args settings inputText Hreach).
    unfold encipher. rewrite Hfactory. eauto.
  - destruct H as (settings & outputText & Hout & Hfile & Hbad).
    destruct Hout as (inputText & cipher & st & Hreach & Hfactory & Hprocess).
    rewrite (main_reaches_cipher fuel E args settings inputText Hreach).
    unfold encipher. rewrite Hfactory, Hprocess. unfold write_output.
    rewrite Hfile, Hbad. simpl. eauto.
Qed.

(** Every run of [main] that ends does so on one of the nine paths with
    the exit code of that path, or on an exception nobody catches. *)
Lemma main_classified fuel E args ex st :
  main fuel E args = Some (ex, st) ->
  (ex = Return 0 /\
   (takes fuel E args HelpRequested \/ takes fuel E args VersionRequested \/
    takes fuel E args TextWritten)) \/
  (ex = Return 1 /\
   (takes fuel E args MissingArg \/ takes fuel E args UnknownArg \/
    takes fuel E args UnreadableInput \/ takes fuel E args InvalidKeyGiven \/
    takes fuel E args NullCipher \/ takes fuel E args UnwritableOutput)) \/
  (exists e, ex = Terminate e).
Proof.
  unfold main.
  destruct (processCommandLine E args default_settings) as [settings|e]
    eqn:Hargs.
  2:{ destruct e; intros [= <- <-]; simpl; eauto 10. }
  destruct (helpRequested settings) eqn:Hhelp.
  { intros [= <- <-]. left. split; [reflexivity|]. left. simpl. eauto. }
  destruct (versionRequested settings) eqn:Hversion.
  { intros [= <- <-]. left. split; [reflexivity|]. right; left. simpl. eauto. }
  destruct (read_input E settings) as [inputText|] eqn:Hread.
  2:{ intros [= <- <-]. right; left. split; [reflexivity|].
      right; right; left. simpl. apply read_input_None in Hread.
      exists settings. tauto. }
  assert (Hreach : reaches_cipher E args settings inputText)
    by (repeat split; assumption).
  unfold encipher.
  destruct (cipherFactory E (cipherType settings) (cipherKey settings))
    as [[cipher|]|e] eqn:Hfactory.
  - destruct (process fuel E cipher settings inputText start)
      as [[[outputText|e] st']|] eqn:Hprocess; [| |discriminate].
    2:{ intros [= <- <-]. eauto. }
    assert (Hout : reaches_output fuel E args settings outputText)
      by (exists inputText, cipher, st'; auto).
    unfold write_output.
    destruct (empty (outputFile settings)) eqn:Hfile; simpl.
    + intros [= <- <-]. left. split; [reflexivity|].
      right; right. simpl. exists settings, outputText. auto.
    + destruct (ofstream_good E (outputFile settings)) eqn:Hgood.
      * intros [= <- <-]. left. split; [reflexivity|].
        right; right. simpl. exists settings, outputText. auto.
      * intros [= <- <-]. right; left. split; [reflexivity|].
        do 5 right. simpl. exists settings, outputText. auto.
  - intros [= <- <-]. right; left. split; [reflexivity|].
    do 4 right; left. simpl. eauto.
  - destruct e; intros [= <- <-]; eauto.
    right; left. split; [reflexivity|].
    do 3 right; left. simpl. eauto 10.
Qed.

(** C10.  [main] returns 0 exactly when help was asked for, or the
    version was, or the text was processed and written; it returns 1
    exactly when an argument is missing or unknown, the input file cannot
    be read, the key is invalid, the factory gave no cipher, or the output
    file cannot be written; and it returns no other code. *)
Theorem exit_code_by_path (fuel : nat) (E : Env) (args : list string) :
  ((exists st, main fuel E args = Some (Return 0, st)) <->
   takes fuel E args HelpRequested \/ takes fuel E args VersionRequested \/
   takes fuel E args TextWritten) /\
  ((exists st, main fuel E args = Some (Return 1, st)) <->
   takes fuel E args MissingArg \/ takes fuel E args UnknownArg \/
   takes fuel E args UnreadableInput \/ takes fuel E args InvalidKeyGiven \/
   takes fuel E args NullCipher \/ takes fuel E args UnwritableOutput) /\
  (forall code st,
     main fuel E args = Some (Return code, st) -> code = 0 \/ code = 1).
Proof.
  split; [|split].
  - split; [|apply takes_success].
    intros [st H]. apply main_classified in H as [[_ H] | [[H _] | [e H]]];
      [exact H | discriminate | discriminate].
  - split; [|apply takes_failure].
    intros [st H]. apply main_classified in H as [[H _] | [[_ H] | [e H]]];
      [discriminate | exact H | discriminate].
  - intros code st H.
    apply main_classified in H as [[H _] | [[H _] | [e H]]];
      [injection H; auto | injection H; auto | discriminate].
Qed.

Lemma exit_code_by_path_witness :
  takes 1 (terminal (with_key Caesar "3" Encrypt) "hello" prompt) []
    TextWritten /\
  takes 1 (terminal (with_key Caesar "abc" Encrypt) "hello" prompt) []
    InvalidKeyGiven /\
  (exists st,
     main 1 (terminal (with_key Caesar "3" Encrypt) "hello" prompt) []
     = Some (Return 0, st)) /\
  (exists st,
     main 1 (terminal (with_key Caesar "abc" Encrypt) "hello" prompt) []
     = Some (Return 1, st)).
Proof.
  assert (H1 : takes 1 (terminal (with_key Caesar "3" Encrypt) "hello" prompt)
                 [] TextWritten).
  { exists (with_key Caesar "3" Encrypt), "KHOOR". split; [|left; reflexivity].
    exists "HELLO", (caesar 3). eexists. repeat split. }
  assert (H2 : takes 1 (terminal (with_key Caesar "abc" Encrypt) "hello" prompt)
                 [] InvalidKeyGiven).
  { exists (with_key Caesar "abc" Encrypt), "HELLO",
      "Caesar cipher requires an integer key". repeat split. }
  split; [exact H1 | split; [exact H2 | split]].
  - apply (proj2 (proj1 (exit_code_by_path 1 _ []))). right; right. exact H1.
  - apply (proj2 (proj1 (proj2 (exit_code_by_path 1 _ [])))).
    do 3 right; left. exact H2.
Defined.

(** ** What the four ranges cover *)

(** The tasks of [main] with [substr] alone as their work: what they
    leave are the pieces of the text. *)
Lemma launched_substr_pieces (inputText : string) :
  map get (launched (substr inputText) (size inputText)) = pieces inputText.
Proof. reflexivity. Qed.

Lemma gather_launched_glue (run : Z -> Z -> result string) (len : Z) :
  gather (launched run len) ""
  = glue (map (fun i => run (segment_first len i) (segment_len len i))
              [0; 1; 2; 3]).
Proof.
  unfold launched. simpl. unfold get. simpl.
  destruct (run (segment_first len 0) _) as [s0|]; simpl; [|reflexivity].
  destruct (run (segment_first len 1) _) as [s1|]; simpl; [|reflexivity].
  destruct (run (segment_first len 2) _) as [s2|]; simpl; [|reflexivity].
  destruct (run (segment_first len 3) _) as [s3|]; simpl; [|reflexivity].
  now rewrite !append_assoc, append_empty_r.
Qed.

(** Below, [inputText] has [4 * q + r] characters with [r < 4]. *)
Section Remainder.

Variable inputText : string.
Hypothesis fits : 3 * size inputText <= SizeT.max.

Let len : Z := size inputText.
Let q : nat := Z.to_nat (len / 4).

Lemma piece_exact (i : Z) :
  0 <= i < numThreads ->
  substr inputText (segment_first len i) (segment_len len i)
  = Ok (substring (Z.to_nat (i * len / 4)) (Z.to_nat (segment_len len i))
                  inputText).
Proof.
  intros Hi. pose proof (size_nonneg inputText) as Hlen.
  rewrite substr_in_range
    by (apply segment_first_le_size; [apply size_nonneg | exact Hi]).
  unfold len. rewrite segment_first_exact; auto.
Qed.

(** The start computed by the loop is the contiguous start plus
    [floor(i * r / 4)], [r] being the remainder: the two agree on every
    range only when [r] is 0 or 1. *)
Lemma segment_first_drift (i : Z) :
  0 <= i < numThreads ->
  segment_first len i = contiguous_first len i + i * (len mod 4) / 4.
Proof.
  intros Hi. pose proof (size_nonneg inputText) as Hlen.
  unfold len. rewrite segment_first_exact by auto. fold len.
  unfold contiguous_first, numThreads.
  rewrite (Z.div_mod len 4) at 1 by lia.
  replace (i * (4 * (len / 4) + len mod 4))
    with (i * (len mod 4) + i * (len / 4) * 4) by lia.
  rewrite Z.div_add by lia. lia.
Qed.

(** Laid end to end, the four ranges are the text, whatever its length. *)
Lemma contiguous_pieces_exact : glue (contiguous_pieces inputText) = Ok inputText.
Proof.
  pose proof (size_nonneg inputText) as Hlen.
  assert (Hq : 0 <= len / 4 /\ 4 * (len / 4) <= len)
    by (unfold len; Z.to_euclidean_division_equations; lia).
  unfold contiguous_pieces, contiguous_first, numThreads. cbn [map]. fold len.
  rewrite !substr_in_range by (fold len; lia). cbn [glue bind].
  rewrite !segment_len_inner by (unfold numThreads; lia).
  rewrite segment_len_last by (fold len; unfold SizeT.max in *; lia).
  fold q. rewrite append_empty_r.
  replace (Z.to_nat (0 * (len / 4))) with 0%nat by reflexivity.
  replace (Z.to_nat (1 * (len / 4))) with (0 + q)%nat by (unfold q; lia).
  replace (Z.to_nat (2 * (len / 4))) with (0 + q + q)%nat by (unfold q; lia).
  replace (Z.to_nat (3 * (len / 4))) with (0 + q + q + q)%nat
    by (unfold q; lia).
  f_equal.
  rewrite (substring_glue inputText (0 + q + q)).
  rewrite (substring_glue inputText (0 + q)).
  rewrite (substring_glue inputText 0).
  apply substring_whole. unfold q, len, size in *.
  Z.to_euclidean_division_equations; lia.
Qed.

(** When the remainder is 0 or 1 the four pieces are the text. *)
Lemma pieces_exact_when_remainder_small :
  len mod 4 <= 1 -> glue (pieces inputText) = Ok inputText.
Proof.
  intros Hr. pose proof (size_nonneg inputText) as Hlen.
  unfold pieces. cbn [map]. fold len.
  rewrite !piece_exact by (unfold numThreads; lia). cbn [glue bind].
  rewrite !segment_len_inner by (unfold numThreads; lia).
  rewrite segment_len_last by (fold len; unfold SizeT.max in *; lia).
  fold q. rewrite append_empty_r.
  replace (Z.to_nat (0 * len / 4)) with 0%nat by reflexivity.
  replace (Z.to_nat (1 * len / 4)) with (0 + q)%nat
    by (unfold q; Z.to_euclidean_division_equations; lia).
  replace (Z.to_nat (2 * len / 4)) with (0 + q + q)%nat
    by (unfold q; Z.to_euclidean_division_equations; lia).
  replace (Z.to_nat (3 * len / 4)) with (0 + q + q + q)%nat
    by (unfold q; Z.to_euclidean_division_equations; lia).
  f_equal.
  rewrite (substring_glue inputText (0 + q + q)).
  rewrite (substring_glue inputText (0 + q)).
  rewrite (substring_glue inputText 0).
  apply substring_whole. unfold q, len, size in *.
  Z.to_euclidean_division_equations; lia.
Qed.

(** When the remainder is 2 or 3 the four pieces hold [4 * q + 1]
    characters: [r - 1] characters of the text are in no piece. *)
Lemma pieces_short_when_remainder_large :
  2 <= len mod 4 ->
  exists out,
    glue (pieces inputText) = Ok out /\
    Z.of_nat (String.length out) = len - (len mod 4 - 1).
Proof.
  intros Hr. pose proof (size_nonneg inputText) as Hlen.
  unfold pieces. cbn [map]. fold len.
  rewrite !piece_exact by (unfold numThreads; lia). cbn [glue bind].
  rewrite !segment_len_inner by (unfold numThreads; lia).
  rewrite segment_len_last by (fold len; unfold SizeT.max in *; lia).
  eexists. split; [reflexivity|].
  rewrite !length_append, !length_substring. cbn [String.length].
  fold q.
  assert (Hq : len / 4 = Z.of_nat q)
    by (unfold q; Z.to_euclidean_division_equations; lia).
  assert (Hsplit : len = 4 * Z.of_nat q + len mod 4)
    by (rewrite <- Hq; apply Z.div_mod; lia).
  assert (Hrem : len mod 4 < 4) by (apply Z.mod_pos_bound; lia).
  assert (H0 : Z.to_nat (0 * len / 4) = 0%nat) by reflexivity.
  assert (H1 : Z.to_nat (1 * len / 4) = q)
    by (rewrite Z.mul_1_l, Hq; lia).
  assert (H2 : Z.to_nat (2 * len / 4) = (2 * q + 1)%nat).
  { replace (2 * len)
      with ((2 * (len mod 4) - 4) + (2 * Z.of_nat q + 1) * 4) by lia.
    rewrite Z.div_add by lia. rewrite Z.div_small by lia. lia. }
  assert (H3 : Z.to_nat (3 * len / 4)
               = (3 * q + Z.to_nat (len mod 4 - 1))%nat).
  { replace (3 * len)
      with ((4 - len mod 4) + (3 * Z.of_nat q + (len mod 4 - 1)) * 4) by lia.
    rewrite Z.div_add by lia. rewrite Z.div_small by lia. lia. }
  rewrite H0, H1, H2, H3.
  replace (Z.to_nat (len / 4 + len mod 4)) with (q + Z.to_nat (len mod 4))%nat
    by lia.
  assert (Hn : String.length inputText = (4 * q + Z.to_nat (len mod 4))%nat)
    by (unfold len, size in *; lia).
  rewrite Hn. lia.
Qed.

End Remainder.

(** ** The Caesar cipher through the dispatcher *)

Lemma map_string_app (f : ascii -> ascii) (s t : string) :
  map_string f (s ++ t) = map_string f s ++ map_string f t.
Proof. induction s as [|c s IH]; simpl; [reflexivity | now rewrite IH]. Qed.

Lemma length_map_string (f : ascii -> ascii) (s : string) :
  String.length (map_string f s) = String.length s.
Proof. induction s as [|c s IH]; simpl; [reflexivity | now rewrite IH]. Qed.

(** The end-to-end example of spec section 8. *)
Example caesar_encrypts_hello :
  applyCipher (caesar 3) "HELLO" Encrypt = Ok "KHOOR" /\
  applyCipher (caesar 3) "KHOOR" Decrypt = Ok "HELLO".
Proof. split; reflexivity. Qed.

Example caesar_rejects_letters :
  CaesarCipher "abc" = Throw (InvalidKey "Caesar cipher requires an integer key").
Proof. reflexivity. Qed.

Example main_encrypts_hello :
  main 1 (terminal (with_key Caesar "3" Encrypt) "hello" prompt) []
  = Some (Return 0,
          {| cout := "KHOOR" ++ endl; cerr := ""; files := [];
             trace := [Async 0 1; Async 1 1; Async 2 1; Async 3 2] |}).
Proof. reflexivity. Qed.

(** The Caesar cipher works letter by letter, so what the four tasks
    return, put end to end, is the cipher applied to the four pieces put
    end to end. *)
Lemma caesar_gather (key : Z) (mode : CipherMode) (inputText : string) :
  gather (launched (fn (caesar key) inputText mode) (size inputText)) ""
  = (covered <- glue (pieces inputText) ;; applyCipher (caesar key) covered mode).
Proof.
  rewrite gather_launched_glue. unfold pieces, fn. cbn [map].
  rewrite !substr_in_range
    by (apply segment_first_le_size;
        [apply size_nonneg | unfold numThreads; lia]).
  cbn [glue bind applyCipher caesar].
  rewrite !map_string_app. reflexivity.
Qed.

Lemma dispatch_gathers fuel poll cipher mode inputText st r st' :
  dispatch fuel poll cipher mode inputText st = Some (r, st') ->
  r = gather (launched (fn cipher inputText mode) (size inputText)) "".
Proof.
  unfold dispatch. rewrite launch_loop_all. intros H.
  now apply collect_loop_result in H as [-> _].
Qed.

(** A text of [4 * q] or [4 * q + 1] characters comes out of the
    dispatcher as it comes out of one call on the whole text. *)
Lemma caesar_dispatch_exact fuel poll key mode inputText st r st' :
  3 * size inputText <= SizeT.max ->
  size inputText mod 4 <= 1 ->
  dispatch fuel poll (caesar key) mode inputText st = Some (r, st') ->
  r = sequential (caesar key) mode inputText.
Proof.
  intros Hfit Hr H. apply dispatch_gathers in H. subst r.
  rewrite caesar_gather, pieces_exact_when_remainder_small by assumption.
  reflexivity.
Qed.

(** A text of [4 * q + 2] or [4 * q + 3] characters comes out with
    [4 * q + 1] characters only. *)
Lemma caesar_dispatch_short fuel poll key mode inputText st r st' :
  3 * size inputText <= SizeT.max ->
  2 <= size inputText mod 4 ->
  dispatch fuel poll (caesar key) mode inputText st = Some (r, st') ->
  exists outputText,
    r = Ok outputText /\
    size outputText = size inputText - (size inputText mod 4 - 1).
Proof.
  intros Hfit Hr H. apply dispatch_gathers in H. subst r.
  rewrite caesar_gather.
  destruct (pieces_short_when_remainder_large inputText Hfit Hr)
    as (covered & -> & Hlen).
  cbn [bind applyCipher caesar]. eexists. split; [reflexivity|].
  unfold size. rewrite length_map_string. exact Hlen.
Qed.

(** C1.  On the ten letters HELLOWORLD, key 3, encrypting: the four
    tasks are given HE, LL, WO and RLD, and their results in range order
    read KHOOZRUOG, whereas one call of [applyCipher] on the whole text
    gives KHOORZRUOG.  The dispatcher loses the fifth letter. *)
Theorem dispatch_differs_from_sequential :
  dispatch 1 prompt (caesar 3) Encrypt "HELLOWORLD" start
  = Some (Ok "KHOOZRUOG",
          {| cout := ""; cerr := ""; files := [];
             trace := [Async 0 2; Async 2 2; Async 5 2; Async 7 4] |}) /\
  sequential (caesar 3) Encrypt "HELLOWORLD" = Ok "KHOORZRUOG" /\
  "KHOOZRUOG" <> "KHOORZRUOG".
Proof. repeat split. discriminate. Qed.

(** C2.  On the ten letters HELLOWORLD the loop asks for the ranges
    (0,2), (2,2), (5,2) and (7,4); the substrings taken are HE, LL, WO
    and RLD.  Position 4 lies in none of them, the last range holds three
    characters where four were asked for, and the pieces put together
    read HELLWORLD; ranges laid end to end would give the text back. *)
Theorem ranges_lose_a_character :
  launch_loop (Z.to_nat numThreads) 0 (substr "HELLOWORLD")
    (size "HELLOWORLD") [] start
  = ([ {| task_first := 0; task_len := 2; shared_state := Ok "HE" |};
       {| task_first := 2; task_len := 2; shared_state := Ok "LL" |};
       {| task_first := 5; task_len := 2; shared_state := Ok "WO" |};
       {| task_first := 7; task_len := 4; shared_state := Ok "RLD" |} ],
     {| cout := ""; cerr := ""; files := [];
        trace := [Async 0 2; Async 2 2; Async 5 2; Async 7 4] |}) /\
  (forall i, 0 <= i < numThreads -> ~ in_range (size "HELLOWORLD") i 4) /\
  glue (pieces "HELLOWORLD") = Ok "HELLWORLD" /\
  glue (contiguous_pieces "HELLOWORLD") = Ok "HELLOWORLD" /\
  "HELLWORLD" <> "HELLOWORLD".
Proof.
  split; [reflexivity|].
  split; [|split; [reflexivity | split; [reflexivity | discriminate]]].
  intros i Hi [H1 H2].
  each_thread i Hi;
    vm_compute in H1, H2; try discriminate; apply H1; reflexivity.
Qed.

(** C4.  Run on the two letters HI with the Caesar key 3, [main] writes
    the single letter L: the output is one character shorter than the
    input. *)
Theorem dispatch_output_shorter_than_input :
  read_input (terminal (with_key Caesar "3" Encrypt) "HI" prompt)
    (with_key Caesar "3" Encrypt) = Some "HI" /\
  main 1 (terminal (with_key Caesar "3" Encrypt) "HI" prompt) []
  = Some (Return 0,
          {| cout := "L" ++ endl; cerr := ""; files := [];
             trace := [Async 0 0; Async 0 0; Async 1 0; Async 1 2] |}) /\
  String.length "L" <> String.length "HI".
Proof. repeat split. discriminate. Qed.

(* ===================================================================== *)
(** * Part III: further properties of [main] *)
(* ===================================================================== *)

(** ** Reading the input *)

Lemma read_loop_acc (f : ascii -> string) (stream : string) :
  forall acc, read_loop f stream acc = acc ++ read_loop f stream "".
Proof.
  induction stream as [|c rest IH]; intros acc; simpl.
  - now rewrite append_empty_r.
  - destruct (isspace c); [apply IH|].
    rewrite (IH (acc ++ f c)), (IH (f c)). apply append_assoc.
Qed.

Lemma read_loop_append (f : ascii -> string) (s t : string) :
  forall acc, read_loop f (s ++ t) acc = read_loop f t (read_loop f s acc).
Proof.
  induction s as [|c s IH]; intros acc; simpl; [reflexivity|].
  destruct (isspace c); apply IH.
Qed.

(** X1.  White space in the stream, wherever it stands, leaves the text
    read unchanged: lines 94 and 103 extract with [>>], which skips it
    before [transformChar] is ever called. *)
Theorem read_loop_ignores_white_space (f : ascii -> string) (s t : string)
  (c : ascii) (acc : string) :
  isspace c = true ->
  read_loop f (s ++ String c t) acc = read_loop f (s ++ t) acc.
Proof.
  intros Hc. rewrite !read_loop_append. simpl. now rewrite Hc.
Qed.

Lemma read_loop_ignores_white_space_witness :
  isspace " " = true /\
  read_loop upper_letters ("ab" ++ String " " "cd") ""
  = read_loop upper_letters ("ab" ++ "cd") "".
Proof.
  assert (H : isspace " " = true) by reflexivity.
  split; [exact H|].
  exact (read_loop_ignores_white_space upper_letters "ab" "cd" " " "" H).
Defined.

Lemma read_loop_flatten (f : ascii -> string) (stream : string) :
  read_loop f stream "" = flatten (map f (extracted stream)).
Proof.
  unfold extracted. induction stream as [|c rest IH]; simpl; [reflexivity|].
  destruct (isspace c); simpl; [exact IH|].
  rewrite read_loop_acc, IH. reflexivity.
Qed.

(** X2.  The text read is [transformChar] of every character of the
    stream that is not white space, each one on its own, put end to end
    in the order of the stream; hence the text read from two streams one
    after the other is the text read from the first followed by the text
    read from the second. *)
Theorem read_loop_is_compositional (f : ascii -> string) (s t : string) :
  read_loop f s "" = flatten (map f (extracted s)) /\
  (forall c rest,
     read_loop f (String c rest) ""
     = (if isspace c then "" else f c) ++ read_loop f rest "") /\
  read_loop f (s ++ t) "" = read_loop f s "" ++ read_loop f t "".
Proof.
  split; [apply read_loop_flatten | split].
  - intros c rest. simpl. destruct (isspace c); [reflexivity|].
    apply read_loop_acc.
  - rewrite read_loop_append. apply read_loop_acc.
Qed.

Lemma letters_only_append (s t : string) :
  letters_only (s ++ t) = (letters_only s && letters_only t)%bool.
Proof.
  induction s as [|c s IH]; simpl; [reflexivity|].
  now rewrite IH, andb_assoc.
Qed.

Lemma read_loop_letters_only (f : ascii -> string) (stream : string) :
  (forall c, letters_only (f c) = true) ->
  forall acc, letters_only acc = true ->
              letters_only (read_loop f stream acc) = true.
Proof.
  intros Hf. induction stream as [|c rest IH]; intros acc Hacc; simpl.
  - exact Hacc.
  - destruct (isspace c); [now apply IH|].
    apply IH. now rewrite letters_only_append, Hacc, Hf.
Qed.

Lemma read_input_letters_only (E : Env) (settings : ProgramSettings)
  (inputText : string) :
  (forall c, letters_only (transformChar E c) = true) ->
  read_input E settings = Some inputText ->
  letters_only inputText = true.
Proof.
  intros Hf. unfold read_input.
  destruct (negb (empty (inputFile settings))).
  - destruct (ifstream E (inputFile settings)) as [contents|]; [|discriminate].
    intros [= <-]. now apply read_loop_letters_only.
  - intros [= <-]. now apply read_loop_letters_only.
Qed.

(** X3.  When [transformChar] gives back letters only, whatever the
    character, the text [main] hands to the cipher is made of letters
    only, be it read from a file or from the standard input. *)
Theorem input_text_is_letters_only (E : Env) (settings : ProgramSettings)
  (inputText : string) :
  (forall c, letters_only (transformChar E c) = true) ->
  read_input E settings = Some inputText ->
  letters_only inputText = true.
Proof. exact (read_input_letters_only E settings inputText). Qed.

Lemma upper_letters_letters_only (c : ascii) :
  letters_only (upper_letters c) = true.
Proof. destruct c as [[] [] [] [] [] [] [] []]; reflexivity. Qed.

Lemma input_text_is_letters_only_witness :
  (forall c,
     letters_only
       (transformChar (terminal (with_key Caesar "3" Encrypt) "Hi, 2 all!" prompt) c)
     = true) /\
  read_input (terminal (with_key Caesar "3" Encrypt) "Hi, 2 all!" prompt)
    (with_key Caesar "3" Encrypt) = Some "HIALL" /\
  letters_only "HIALL" = true.
Proof.
  assert (H1 : forall c,
             letters_only
               (transformChar
                  (terminal (with_key Caesar "3" Encrypt) "Hi, 2 all!" prompt) c)
             = true) by exact upper_letters_letters_only.
  assert (H2 : read_input
                 (terminal (with_key Caesar "3" Encrypt) "Hi, 2 all!" prompt)
                 (with_key Caesar "3" Encrypt) = Some "HIALL") by reflexivity.
  split; [exact H1 | split; [exact H2|]].
  exact (input_text_is_letters_only _ _ _ H1 H2).
Defined.

(** ** Where the ranges lie *)

(** The four starts, written with the quotient and the remainder of the
    length by 4. *)
Lemma segment_first_values (inputLength : Z) :
  0 <= inputLength -> 3 * inputLength <= SizeT.max ->
  segment_first inputLength 0 = 0 /\
  segment_first inputLength 1 = inputLength / 4 /\
  (inputLength mod 4 <= 1 /\
     segment_first inputLength 2 = 2 * (inputLength / 4) \/
   2 <= inputLength mod 4 /\
     segment_first inputLength 2 = 2 * (inputLength / 4) + 1) /\
  (inputLength mod 4 <= 1 /\
     segment_first inputLength 3 = 3 * (inputLength / 4) \/
   inputLength mod 4 = 2 /\
     segment_first inputLength 3 = 3 * (inputLength / 4) + 1 \/
   inputLength mod 4 = 3 /\
     segment_first inputLength 3 = 3 * (inputLength / 4) + 2).
Proof.
  intros Hlen Hfit.
  rewrite !segment_first_exact by (unfold numThreads; lia).
  repeat split; Z.to_euclidean_division_equations; lia.
Qed.

(** X4.  For a text whose length times three fits a [size_t], a position
    of the text is given to one of the four tasks unless it is position
    [2 * floor(len/4)] of a text with remainder 2 or 3, or position
    [3 * floor(len/4) + 1] of a text with remainder 3: these and only
    these characters are left out. *)
Theorem positions_left_out (inputText : string) (p : Z) :
  3 * size inputText <= SizeT.max ->
  0 <= p < size inputText ->
  (exists i, 0 <= i < numThreads /\ in_range (size inputText) i p) <->
  ~ skipped (size inputText) p.
Proof.
  intros Hfit Hp. pose proof (size_nonneg inputText) as Hlen.
  destruct (segment_first_values (size inputText) Hlen Hfit)
    as (F0 & F1 & F2 & F3).
  pose proof (segment_len_inner (size inputText) 0
                ltac:(unfold numThreads; lia)) as L0.
  pose proof (segment_len_inner (size inputText) 1
                ltac:(unfold numThreads; lia)) as L1.
  pose proof (segment_len_inner (size inputText) 2
                ltac:(unfold numThreads; lia)) as L2.
  pose proof (segment_len_last (size inputText)
                ltac:(unfold SizeT.max in *; lia)) as L3.
  assert (Hsplit : size inputText
                   = 4 * (size inputText / 4) + size inputText mod 4)
    by (apply Z.div_mod; lia).
  assert (Hrem : 0 <= size inputText mod 4 < 4)
    by (apply Z.mod_pos_bound; lia).
  unfold skipped, in_range. split.
  - intros (i & Hi & Hin). each_thread i Hi; lia.
  - intros Hnot.
    assert (Hwhere :
              p < size inputText / 4 \/
              size inputText / 4 <= p < 2 * (size inputText / 4) \/
              segment_first (size inputText) 2 <= p
                < segment_first (size inputText) 2 + size inputText / 4 \/
              segment_first (size inputText) 3 <= p) by lia.
    unfold numThreads.
    destruct Hwhere as [H | [H | [H | H]]];
      [exists 0 | exists 1 | exists 2 | exists 3]; lia.
Qed.

Lemma positions_left_out_witness :
  3 * size "HELLOWORLD" <= SizeT.max /\
  0 <= 4 < size "HELLOWORLD" /\
  ((exists i, 0 <= i < numThreads /\ in_range (size "HELLOWORLD") i 4) <->
   ~ skipped (size "HELLOWORLD") 4).
Proof.
  assert (H1 : 3 * size "HELLOWORLD" <= SizeT.max)
    by (vm_compute; discriminate).
  assert (H2 : 0 <= 4 < size "HELLOWORLD") by (vm_compute; split; congruence).
  split; [exact H1 | split; [exact H2|]].
  exact (positions_left_out "HELLOWORLD" 4 H1 H2).
Defined.

(** X5.  The lengths asked of the four tasks add up to the length of the
    text, but the ranges do not end where the text ends: the last one is
    asked to run [floor(3 * (len mod 4) / 4)] characters beyond it, as
    many as were left out before. *)
Theorem lengths_add_up_ranges_overshoot (inputText : string) :
  3 * size inputText <= SizeT.max ->
  segment_len (size inputText) 0 + segment_len (size inputText) 1
  + segment_len (size inputText) 2 + segment_len (size inputText) 3
  = size inputText /\
  segment_first (size inputText) 3 + segment_len (size inputText) 3
  = size inputText + 3 * (size inputText mod 4) / 4.
Proof.
  intros Hfit. pose proof (size_nonneg inputText) as Hlen.
  rewrite !segment_len_inner by (unfold numThreads; lia).
  rewrite segment_len_last by (unfold SizeT.max in *; lia).
  rewrite segment_first_exact by (unfold numThreads; lia).
  split; Z.to_euclidean_division_equations; lia.
Qed.

Lemma lengths_add_up_ranges_overshoot_witness :
  3 * size "HELLOWORLD" <= SizeT.max /\
  segment_first (size "HELLOWORLD") 3 + segment_len (size "HELLOWORLD") 3
  = size "HELLOWORLD" + 3 * (size "HELLOWORLD" mod 4) / 4.
Proof.
  assert (H : 3 * size "HELLOWORLD" <= SizeT.max) by (vm_compute; discriminate).
  split; [exact H|].
  exact (proj2 (lengths_add_up_ranges_overshoot "HELLOWORLD" H)).
Defined.

(** X6.  A text of at most three characters gives the first three tasks
    nothing to do, and the last task its final character alone: of CAT
    only T is enciphered. *)
Theorem short_text_keeps_last_character (cipher : Cipher) (mode : CipherMode)
  (inputText : string) :
  size inputText <= 3 ->
  map get (launched (fn cipher inputText mode) (size inputText))
  = [ applyCipher cipher "" mode; applyCipher cipher "" mode;
      applyCipher cipher "" mode;
      applyCipher cipher
        (substring (String.length inputText - 1) 1 inputText) mode ].
Proof.
  intros H.
  destruct inputText as [|a [|b [|c [|d rest]]]]; try reflexivity.
  unfold size in H. simpl String.length in H. lia.
Qed.

Lemma short_text_keeps_last_character_witness :
  size "CAT" <= 3 /\
  map get (launched (fn (caesar 3) "CAT" Encrypt) (size "CAT"))
  = [ Ok ""; Ok ""; Ok ""; Ok "W" ].
Proof.
  assert (H : size "CAT" <= 3) by (vm_compute; discriminate).
  split; [exact H|].
  exact (short_text_keeps_last_character (caesar 3) Encrypt "CAT" H).
Defined.

(** ** Ciphers that work one character at a time *)

Lemma charwise_gather (cipher : Cipher) (mode : CipherMode)
  (f : ascii -> ascii) (inputText : string) :
  charwise cipher mode f ->
  gather (launched (fn cipher inputText mode) (size inputText)) ""
  = (covered <- glue (pieces inputText) ;; Ok (map_string f covered)).
Proof.
  intros Hf. rewrite gather_launched_glue. unfold pieces, fn. cbn [map].
  rewrite !substr_in_range
    by (apply segment_first_le_size;
        [apply size_nonneg | unfold numThreads; lia]).
  cbn [glue bind]. rewrite !Hf. cbn [glue bind].
  rewrite !map_string_app. reflexivity.
Qed.

Lemma dispatch_completes (cipher : Cipher) (mode : CipherMode)
  (inputText : string) (poll : nat -> nat -> future_status)
  (delay : nat -> nat) (fuel : nat) (st : State) :
  (forall n, (n < 4)%nat -> poll n (delay n) = ready /\ (delay n < fuel)%nat) ->
  exists st',
    dispatch fuel poll cipher mode inputText st
    = Some (gather (launched (fn cipher inputText mode) (size inputText)) "",
            st') /\
    same_but_cout
      (fold_left (fun acc ev => record ev acc) (launches (size inputText)) st)
      st'.
Proof.
  intros H. unfold dispatch. rewrite launch_loop_all.
  destruct (collect_loop_completes fuel poll delay
              (launched (fn cipher inputText mode) (size inputText)) 0 ""
              (fold_left (fun acc ev => record ev acc)
                         (launches (size inputText)) st)) as [st' Hst'].
  { intros m Hm. apply H. rewrite length_launched in Hm. lia. }
  exists st'. split; [exact Hst'|].
  now apply collect_loop_result in Hst' as [_ Hsame].
Qed.

(** X7.  For a cipher that works one character at a time, and a text
    whose length leaves remainder 0 or 1 when divided by 4, the
    dispatcher gives what one call on the whole text gives: whenever the
    collection is over, whatever the polls saw, and it is over at once
    when every future is ready at the first poll. *)
Theorem charwise_dispatch_is_sequential (cipher : Cipher) (mode : CipherMode)
  (f : ascii -> ascii) (inputText : string) (st : State) :
  charwise cipher mode f ->
  3 * size inputText <= SizeT.max ->
  size inputText mod 4 <= 1 ->
  (forall fuel poll r st',
     dispatch fuel poll cipher mode inputText st = Some (r, st') ->
     r = sequential cipher mode inputText) /\
  (exists st',
     dispatch 1 prompt cipher mode inputText st
     = Some (sequential cipher mode inputText, st')).
Proof.
  intros Hf Hfit Hr.
  assert (Hg : gather (launched (fn cipher inputText mode) (size inputText)) ""
               = sequential cipher mode inputText).
  { rewrite (charwise_gather cipher mode f inputText Hf).
    rewrite pieces_exact_when_remainder_small by assumption.
    unfold sequential. now rewrite Hf. }
  split.
  - intros fuel poll r st' H. apply dispatch_gathers in H. congruence.
  - destruct (dispatch_completes cipher mode inputText prompt
                (fun _ => 0%nat) 1 st) as (st' & H & _).
    { intros n _. split; [reflexivity | lia]. }
    exists st'. now rewrite H, Hg.
Qed.

Lemma charwise_dispatch_is_sequential_witness :
  charwise (caesar 3) Encrypt (Alphabet.shift_char (3 mod Alphabet.alphabetSize)) /\
  3 * size "HELLO" <= SizeT.max /\
  size "HELLO" mod 4 <= 1 /\
  exists st',
    dispatch 1 prompt (caesar 3) Encrypt "HELLO" start
    = Some (sequential (caesar 3) Encrypt "HELLO", st').
Proof.
  assert (H1 : charwise (caesar 3) Encrypt
                 (Alphabet.shift_char (3 mod Alphabet.alphabetSize)))
    by (intros text; reflexivity).
  assert (H2 : 3 * size "HELLO" <= SizeT.max) by (vm_compute; discriminate).
  assert (H3 : size "HELLO" mod 4 <= 1) by (vm_compute; discriminate).
  split; [exact H1 | split; [exact H2 | split; [exact H3|]]].
  exact (proj2 (charwise_dispatch_is_sequential (caesar 3) Encrypt _ "HELLO"
                  start H1 H2 H3)).
Defined.

(** Below, [inputText] has [4 * q + r] characters with [2 <= r < 4]. *)
Section Loss.

Variable inputText : string.
Hypothesis fits : 3 * size inputText <= SizeT.max.
Hypothesis large : 2 <= size inputText mod 4.

Let len : Z := size inputText.
Let q : nat := Z.to_nat (len / 4).
Let r : nat := Z.to_nat (len mod 4).

(** What the four pieces hold: the text without the character at [2 * q]
    and, when [r] is 3, without the one at [3 * q + 1]. *)
Lemma pieces_when_remainder_large :
  glue (pieces inputText)
  = Ok (substring 0 (2 * q) inputText
        ++ substring (2 * q + 1) q inputText
        ++ substring (3 * q + r - 1) (q + r) inputText).
Proof.
  pose proof (size_nonneg inputText) as Hlen.
  unfold pieces. cbn [map]. fold len.
  rewrite !piece_exact by (assumption || (unfold numThreads; lia)).
  cbn [glue bind].
  rewrite !segment_len_inner by (unfold numThreads; lia).
  rewrite segment_len_last by (fold len; unfold SizeT.max in *; lia).
  fold len. fold q.
  assert (Hq : len / 4 = Z.of_nat q)
    by (unfold q; Z.to_euclidean_division_equations; lia).
  assert (Hsplit : len = 4 * Z.of_nat q + len mod 4)
    by (rewrite <- Hq; apply Z.div_mod; lia).
  assert (Hrem : len mod 4 < 4) by (apply Z.mod_pos_bound; lia).
  assert (Hlarge : 2 <= len mod 4) by exact large.
  assert (Hr : len mod 4 = Z.of_nat r) by (unfold r; lia).
  assert (H0 : Z.to_nat (0 * len / 4) = 0%nat) by reflexivity.
  assert (H1 : Z.to_nat (1 * len / 4) = q)
    by (rewrite Z.mul_1_l, Hq; lia).
  assert (H2 : Z.to_nat (2 * len / 4) = (2 * q + 1)%nat).
  { replace (2 * len)
      with ((2 * (len mod 4) - 4) + (2 * Z.of_nat q + 1) * 4) by lia.
    rewrite Z.div_add by lia. rewrite Z.div_small by lia. lia. }
  assert (H3 : Z.to_nat (3 * len / 4) = (3 * q + r - 1)%nat).
  { replace (3 * len)
      with ((4 - len mod 4) + (3 * Z.of_nat q + (len mod 4 - 1)) * 4) by lia.
    rewrite Z.div_add by lia. rewrite Z.div_small by lia. lia. }
  rewrite H0, H1, H2, H3.
  replace (Z.to_nat (len / 4 + len mod 4)) with (q + r)%nat by lia.
  rewrite append_empty_r.
  rewrite <- append_assoc.
  replace (2 * q)%nat with (q + q)%nat by lia.
  rewrite <- (substring_glue inputText 0 q q). reflexivity.
Qed.

End Loss.

(** X8.  For a cipher that works one character at a time, and a text of
    [4 * q + r] characters with [r] equal to 2 or 3, the dispatcher
    returns the cipher of the text without its character at position
    [2 * q] and, when [r] is 3, without the one at [3 * q + 1]; the result
    has [4 * q + 1] characters where one call on the whole text gives
    [4 * q + r]. *)
Theorem charwise_dispatch_loses_characters (cipher : Cipher)
  (mode : CipherMode) (f : ascii -> ascii) (inputText : string)
  (fuel : nat) (poll : nat -> nat -> future_status) (st st' : State)
  (res : result string) :
  charwise cipher mode f ->
  3 * size inputText <= SizeT.max ->
  2 <= size inputText mod 4 ->
  dispatch fuel poll cipher mode inputText st = Some (res, st') ->
  let q := Z.to_nat (size inputText / 4) in
  let r := Z.to_nat (size inputText mod 4) in
  res = Ok (map_string f
              (substring 0 (2 * q) inputText
               ++ substring (2 * q + 1) q inputText
               ++ substring (3 * q + r - 1) (q + r) inputText)) /\
  (exists out, res = Ok out /\ String.length out = (4 * q + 1)%nat) /\
  (exists whole,
     sequential cipher mode inputText = Ok whole /\
     String.length whole = (4 * q + r)%nat).
Proof.
  intros Hf Hfit Hr H q r. apply dispatch_gathers in H. subst res.
  rewrite (charwise_gather cipher mode f inputText Hf).
  rewrite (pieces_when_remainder_large inputText Hfit Hr). cbn [bind].
  fold q. fold r.
  pose proof (size_nonneg inputText) as Hlen.
  assert (Hn : String.length inputText = (4 * q + r)%nat).
  { unfold q, r, size in *.
    pose proof (Z.div_mod (Z.of_nat (String.length inputText)) 4
                  ltac:(lia)) as Hsplit.
    pose proof (Z.mod_pos_bound (Z.of_nat (String.length inputText)) 4
                  ltac:(lia)) as Hb.
    assert (0 <= Z.of_nat (String.length inputText) / 4)
      by (apply Z.div_pos; lia).
    lia. }
  assert (Hrr : (2 <= r < 4)%nat).
  { unfold r.
    pose proof (Z.mod_pos_bound (size inputText) 4 ltac:(lia)). lia. }
  split; [reflexivity | split].
  - eexists. split; [reflexivity|].
    rewrite length_map_string, !length_append, !length_substring, Hn. lia.
  - unfold sequential. rewrite Hf. eexists. split; [reflexivity|].
    now rewrite length_map_string.
Qed.

Lemma charwise_dispatch_loses_characters_witness :
  charwise (caesar 3) Encrypt (Alphabet.shift_char (3 mod Alphabet.alphabetSize)) /\
  3 * size "HELLOWORLD" <= SizeT.max /\
  2 <= size "HELLOWORLD" mod 4 /\
  dispatch 1 prompt (caesar 3) Encrypt "HELLOWORLD" start
  = Some (Ok "KHOOZRUOG",
          {| cout := ""; cerr := ""; files := [];
             trace := [Async 0 2; Async 2 2; Async 5 2; Async 7 4] |}) /\
  exists out, Ok "KHOOZRUOG" = Ok out /\ String.length out = 9%nat.
Proof.
  assert (H1 : charwise (caesar 3) Encrypt
                 (Alphabet.shift_char (3 mod Alphabet.alphabetSize)))
    by (intros text; reflexivity).
  assert (H2 : 3 * size "HELLOWORLD" <= SizeT.max)
    by (vm_compute; discriminate).
  assert (H3 : 2 <= size "HELLOWORLD" mod 4) by (vm_compute; discriminate).
  assert (H4 : dispatch 1 prompt (caesar 3) Encrypt "HELLOWORLD" start
               = Some (Ok "KHOOZRUOG",
                       {| cout := ""; cerr := ""; files := [];
                          trace := [Async 0 2; Async 2 2; Async 5 2;
                                    Async 7 4] |})) by reflexivity.
  split; [exact H1 | split; [exact H2 | split; [exact H3 | split;
    [exact H4|]]]].
  exact (proj1 (proj2 (charwise_dispatch_loses_characters (caesar 3) Encrypt _
                         "HELLOWORLD" 1 prompt start _ _ H1 H2 H3 H4))).
Defined.

(** ** When a task fails *)

(** Gathering the four futures ends on an exception exactly when some
    task ended on it while every task of a lower range returned a string. *)
Lemma gather_launched_Throw_iff (run : Z -> Z -> result string)
  (inputLength : Z) (e : exn) :
  gather (launched run inputLength) "" = Throw e <->
  exists i,
    0 <= i < numThreads /\
    run (segment_first inputLength i) (segment_len inputLength i) = Throw e /\
    forall j, 0 <= j < i ->
      exists s,
        run (segment_first inputLength j) (segment_len inputLength j) = Ok s.
Proof.
  unfold launched, numThreads. cbn [map gather]. unfold get, async.
  cbn [shared_state].
  split.
  - destruct (run (segment_first inputLength 0) _) as [s0|e0] eqn:H0;
      cbn [bind gather shared_state].
    2:{ intros [= <-]. exists 0. repeat split; try lia. exact H0. }
    destruct (run (segment_first inputLength 1) _) as [s1|e1] eqn:H1;
      cbn [bind gather shared_state].
    2:{ intros [= <-]. exists 1. repeat split; try lia; [exact H1|].
        intros j Hj. assert (j = 0) as -> by lia. eauto. }
    destruct (run (segment_first inputLength 2) _) as [s2|e2] eqn:H2;
      cbn [bind gather shared_state].
    2:{ intros [= <-]. exists 2. repeat split; try lia; [exact H2|].
        intros j Hj. assert (j = 0 \/ j = 1) as [-> | ->] by lia; eauto. }
    destruct (run (segment_first inputLength 3) _) as [s3|e3] eqn:H3;
      cbn [bind gather shared_state]; [discriminate|].
    intros [= <-]. exists 3. repeat split; try lia; [exact H3|].
    intros j Hj. assert (j = 0 \/ j = 1 \/ j = 2) as [-> | [-> | ->]] by lia;
      eauto.
  - intros (i & Hi & Hthrow & Hbefore).
    assert (Hcase : i = 0 \/ i = 1 \/ i = 2 \/ i = 3) by lia.
    destruct Hcase as [-> | [-> | [-> | ->]]].
    + now rewrite Hthrow.
    + destruct (Hbefore 0 ltac:(lia)) as [s0 ->]. cbn [bind gather].
      cbn [shared_state]. now rewrite Hthrow.
    + destruct (Hbefore 0 ltac:(lia)) as [s0 ->].
      destruct (Hbefore 1 ltac:(lia)) as [s1 ->].
      cbn [bind gather shared_state]. now rewrite Hthrow.
    + destruct (Hbefore 0 ltac:(lia)) as [s0 ->].
      destruct (Hbefore 1 ltac:(lia)) as [s1 ->].
      destruct (Hbefore 2 ltac:(lia)) as [s2 ->].
      cbn [bind gather shared_state]. now rewrite Hthrow.
Qed.

(** X9.  When the Caesar branch ends on an exception, some task ended on
    it, on a piece of the text [applyCipher] itself refuses, while every
    task of a lower range returned a string: of several failures the one
    of the lowest range is rethrown by [get].  Nothing has then been
    written to the error stream or to a file. *)
Theorem dispatch_rethrows_first_failure (cipher : Cipher) (mode : CipherMode)
  (inputText : string) (fuel : nat) (poll : nat -> nat -> future_status)
  (st st' : State) (e : exn) :
  dispatch fuel poll cipher mode inputText st = Some (Throw e, st') ->
  (exists i,
     0 <= i < numThreads /\
     applyCipher cipher
       (substring (Z.to_nat (segment_first (size inputText) i))
                  (Z.to_nat (segment_len (size inputText) i)) inputText)
       mode = Throw e /\
     forall j, 0 <= j < i ->
       exists s,
         fn cipher inputText mode (segment_first (size inputText) j)
            (segment_len (size inputText) j) = Ok s) /\
  cerr st' = cerr st /\ files st' = files st.
Proof.
  intros H. pose proof H as Hg. apply dispatch_gathers in Hg.
  symmetry in Hg. apply gather_launched_Throw_iff in Hg
    as (i & Hi & Hthrow & Hbefore).
  split.
  - exists i. rewrite fn_in_range in Hthrow by exact Hi. auto.
  - unfold dispatch in H. rewrite launch_loop_all in H.
    apply collect_loop_result in H as [_ (Herr & Hfiles & _)].
    split; symmetry; assumption.
Qed.

Lemma dispatch_rethrows_first_failure_witness :
  dispatch 1 prompt
    {| applyCipher := fun text _ =>
         if letters_only text then Ok text
         else Throw (other_exception text) |}
    Encrypt "AB1D2" start
  = Some (Throw (other_exception "1"),
          {| cout := ""; cerr := ""; files := [];
             trace := [Async 0 1; Async 1 1; Async 2 1; Async 3 2] |}) /\
  exists i,
    0 <= i < numThreads /\
    (if letters_only
          (substring (Z.to_nat (segment_first (size "AB1D2") i))
                     (Z.to_nat (segment_len (size "AB1D2") i)) "AB1D2")
     then Ok (substring (Z.to_nat (segment_first (size "AB1D2") i))
                        (Z.to_nat (segment_len (size "AB1D2") i)) "AB1D2")
     else Throw (other_exception
                   (substring (Z.to_nat (segment_first (size "AB1D2") i))
                      (Z.to_nat (segment_len (size "AB1D2") i)) "AB1D2")))
    = Throw (other_exception "1").
Proof.
  assert (H : dispatch 1 prompt
                {| applyCipher := fun text _ =>
                     if letters_only text then Ok text
                     else Throw (other_exception text) |}
                Encrypt "AB1D2" start
              = Some (Throw (other_exception "1"),
                      {| cout := ""; cerr := ""; files := [];
                         trace := [Async 0 1; Async 1 1; Async 2 1;
                                   Async 3 2] |})) by reflexivity.
  split; [exact H|].
  destruct (proj1 (dispatch_rethrows_first_failure _ _ _ _ _ _ _ _ H))
    as (i & Hi & Hthrow & _).
  exists i. split; [exact Hi | exact Hthrow].
Defined.

(** ** The streams at the end of a run *)

Lemma process_streams fuel E cipher settings inputText st r st' :
  process fuel E cipher settings inputText st = Some (r, st') ->
  cerr st' = cerr st /\ files st' = files st.
Proof.
  unfold process.
  destruct (CipherType_eqb (cipherType settings) Caesar).
  - unfold dispatch. rewrite launch_loop_all. intros H.
    apply collect_loop_result in H as [_ (Herr & Hfiles & _)].
    split; symmetry; assumption.
  - intros [= <- <-]. split; reflexivity.
Qed.

(** X10.  Whenever [main] ends: with exit code 0 the error stream is
    empty; with exit code 1 no file has been written and the error stream
    holds exactly one of the six messages of [main], each starting with
    "[error] " and closed by a line end, around the message of the
    exception or the name of the file as given; on an uncaught exception
    [main] has written nothing to the error stream and no file.  At most
    one file is ever written. *)
Theorem error_stream_tells_the_outcome (fuel : nat) (E : Env)
  (args : list string) (ex : exit) (st : State) :
  main fuel E args = Some (ex, st) ->
  match ex with
  | Return code =>
      (code = 0 /\ cerr st = "") \/
      (code = 1 /\ files st = [] /\
       ((exists msg,
           processCommandLine E args default_settings
           = Throw (MissingArgument msg) /\
           cerr st = "[error] Missing argument: " ++ msg ++ endl) \/
        (exists msg,
           processCommandLine E args default_settings
           = Throw (UnknownArgument msg) /\
           cerr st = "[error] Unknown argument: " ++ msg ++ endl) \/
        (exists settings,
           processCommandLine E args default_settings = Ok settings /\
           cerr st = "[error] failed to create istream on file '"
                     ++ inputFile settings ++ "'" ++ endl) \/
        (exists settings msg,
           processCommandLine E args default_settings = Ok settings /\
           cipherFactory E (cipherType settings) (cipherKey settings)
           = Throw (InvalidKey msg) /\
           cerr st = "[error] Invalid key: " ++ msg ++ endl) \/
        cerr st = "[error] problem constructing requested cipher" ++ endl \/
        (exists settings,
           processCommandLine E args default_settings = Ok settings /\
           cerr st = "[error] failed to create ostream on file '"
                     ++ outputFile settings ++ "'" ++ endl)) /\
       exists reason, cerr st = "[error] " ++ reason ++ endl)
  | Terminate _ => cerr st = "" /\ files st = []
  end /\
  (List.length (files st) <= 1)%nat.
Proof.
  unfold main.
  destruct (processCommandLine E args default_settings) as [settings|e].
  2:{ destruct e as [msg|msg|msg|msg|msg]; intros [= <- <-]; cbn;
        split; auto; right; repeat split.
      - left. now exists msg.
      - now exists ("Missing argument: " ++ msg).
      - right; left. now exists msg.
      - now exists ("Unknown argument: " ++ msg). }
  destruct (helpRequested settings).
  { intros [= <- <-]. cbn. auto. }
  destruct (versionRequested settings).
  { intros [= <- <-]. cbn. auto. }
  destruct (read_input E settings) as [inputText|].
  2:{ intros [= <- <-]. cbn. split; auto. right. repeat split.
      - do 2 right; left. now exists settings.
      - exists ("failed to create istream on file '"
                ++ inputFile settings ++ "'").
        cbn. now rewrite append_assoc. }
  unfold encipher.
  destruct (cipherFactory E (cipherType settings) (cipherKey settings))
    as [[cipher|]|e] eqn:Hfactory.
  - destruct (process fuel E cipher settings inputText start)
      as [[[outputText|e] st']|] eqn:Hprocess; [| |discriminate];
      apply process_streams in Hprocess as [Herr Hfiles];
      cbn in Herr, Hfiles.
    2:{ intros [= <- <-]. rewrite Herr, Hfiles. cbn. auto. }
    unfold write_output.
    destruct (empty (outputFile settings)); cbn [negb].
    + intros [= <- <-]. cbn. rewrite Herr, Hfiles. cbn. auto.
    + destruct (ofstream_good E (outputFile settings)).
      * intros [= <- <-]. cbn. rewrite Herr, Hfiles. cbn. auto.
      * intros [= <- <-]. cbn. rewrite Herr, Hfiles. cbn. split; auto.
        right. repeat split.
        -- do 5 right. now exists settings.
        -- exists ("failed to create ostream on file '"
                   ++ outputFile settings ++ "'").
           cbn. now rewrite append_assoc.
  - intros [= <- <-]. cbn. split; auto. right. repeat split.
    + do 4 right; left. reflexivity.
    + now exists "problem constructing requested cipher".
  - destruct e as [msg|msg|msg|msg|msg]; intros [= <- <-]; cbn; split; auto.
    right. repeat split.
    + do 3 right; left. now exists settings, msg.
    + now exists ("Invalid key: " ++ msg).
Qed.

Lemma error_stream_tells_the_outcome_witness :
  main 0
    (desk {| helpRequested := false; versionRequested := false;
             inputFile := ""; outputFile := "locked.txt";
             cipherKey := ""; cipherMode := Encrypt;
             cipherType := Vigenere |} "ab1" mirror) []
  = Some (Return 1,
          {| cout := "";
             cerr := "[error] failed to create ostream on file '"
                     ++ "locked.txt" ++ "'" ++ endl;
             files := []; trace := [Apply "AB" Encrypt] |}) /\
  exists reason,
    "[error] failed to create ostream on file '" ++ "locked.txt" ++ "'" ++ endl
    = "[error] " ++ reason ++ endl.
Proof.
  assert (H : main 0
                (desk {| helpRequested := false; versionRequested := false;
                         inputFile := ""; outputFile := "locked.txt";
                         cipherKey := ""; cipherMode := Encrypt;
                         cipherType := Vigenere |} "ab1" mirror) []
              = Some (Return 1,
                      {| cout := "";
                         cerr := "[error] failed to create ostream on file '"
                                 ++ "locked.txt" ++ "'" ++ endl;
                         files := []; trace := [Apply "AB" Encrypt] |}))
    by reflexivity.
  split; [exact H|].
  destruct (proj1 (error_stream_tells_the_outcome 0 _ [] _ _ H))
    as [[Habsurd _] | (_ & _ & _ & Hreason)];
    [discriminate | exact Hreason].
Defined.

(** X11.  Once help or the version is asked for, nothing else on the
    command line or in the environment matters: no input is read, no key
    is looked at, no cipher is built, and [main] returns 0 having printed
    the usage text when help was asked for, the version otherwise.  Help
    comes first when both are asked for. *)
Theorem help_and_version_come_first (fuel1 fuel2 : nat) (E1 E2 : Env)
  (args : list string) (settings : ProgramSettings) :
  processCommandLine E1 args default_settings = Ok settings ->
  processCommandLine E2 args default_settings = Ok settings ->
  helpRequested settings = true \/ versionRequested settings = true ->
  main fuel1 E1 args = main fuel2 E2 args /\
  main fuel1 E1 args
  = Some (Return 0,
          {| cout := if helpRequested settings then usage
                     else version ++ endl;
             cerr := ""; files := []; trace := [] |}).
Proof.
  intros H1 H2 Hasked. unfold main. rewrite H1, H2.
  destruct (helpRequested settings); [split; reflexivity|].
  destruct Hasked as [Habsurd | ->]; [discriminate | split; reflexivity].
Qed.

Lemma help_and_version_come_first_witness :
  helpRequested
    {| helpRequested := true; versionRequested := true;
       inputFile := "missing.txt"; outputFile := ""; cipherKey := "abc";
       cipherMode := Encrypt; cipherType := Caesar |} = true /\
  main 0
    (terminal
       {| helpRequested := true; versionRequested := true;
          inputFile := "missing.txt"; outputFile := ""; cipherKey := "abc";
          cipherMode := Encrypt; cipherType := Caesar |} "" prompt) []
  = Some (Return 0,
          {| cout := usage; cerr := ""; files := []; trace := [] |}).
Proof.
  split; [reflexivity|].
  exact (proj2 (help_and_version_come_first 0 0
                  (terminal
                     {| helpRequested := true; versionRequested := true;
                        inputFile := "missing.txt"; outputFile := "";
                        cipherKey := "abc"; cipherMode := Encrypt;
                        cipherType := Caesar |} "" prompt)
                  (terminal
                     {| helpRequested := true; versionRequested := true;
                        inputFile := "missing.txt"; outputFile := "";
                        cipherKey := "abc"; cipherMode := Encrypt;
                        cipherType := Caesar |} "" prompt)
                  []
                  {| helpRequested := true; versionRequested := true;
                     inputFile := "missing.txt"; outputFile := "";
                     cipherKey := "abc"; cipherMode := Encrypt;
                     cipherType := Caesar |}
                  eq_refl eq_refl (or_introl eq_refl))).
Defined.

Lemma main_Terminate_inv (fuel : nat) (E : Env) (args : list string)
  (e : exn) (st : State) :
  main fuel E args = Some (Terminate e, st) ->
  (processCommandLine E args default_settings = Throw e /\
   (forall msg, e <> MissingArgument msg) /\
   (forall msg, e <> UnknownArgument msg)) \/
  (exists settings inputText,
     reaches_cipher E args settings inputText /\
     cipherFactory E (cipherType settings) (cipherKey settings) = Throw e /\
     forall msg, e <> InvalidKey msg) \/
  (exists settings inputText cipher st',
     reaches_cipher E args settings inputText /\
     cipherFactory E (cipherType settings) (cipherKey settings)
     = Ok (Some cipher) /\
     process fuel E cipher settings inputText start = Some (Throw e, st')).
Proof.
  intros H. unfold main in H.
  destruct (processCommandLine E args default_settings) as [settings|e0]
    eqn:Hargs.
  2:{ left. destruct e0; try discriminate; injection H as <- _;
        repeat split; intros; discriminate. }
  destruct (helpRequested settings) eqn:Hhelp; [discriminate|].
  destruct (versionRequested settings) eqn:Hversion; [discriminate|].
  destruct (read_input E settings) as [inputText|] eqn:Hread;
    [|discriminate].
  assert (Hreach : reaches_cipher E args settings inputText)
    by (repeat split; assumption).
  right. unfold encipher in H.
  destruct (cipherFactory E (cipherType settings) (cipherKey settings))
    as [[cipher|]|e0] eqn:Hfactory; [| discriminate |].
  - right. destruct (process fuel E cipher settings inputText start)
      as [[[outputText|e0] st']|] eqn:Hprocess; [| |discriminate].
    + unfold write_output in H.
      destruct (negb (empty (outputFile settings)));
        [destruct (ofstream_good E (outputFile settings))|];
        discriminate.
    + injection H as <- _. exists settings, inputText, cipher, st'. auto.
  - left. exists settings, inputText.
    destruct e0; try discriminate; injection H as <- _;
      repeat split; auto; intros; discriminate.
Qed.

(** X12.  [main] ends on an exception nobody catches in three cases
    only: the command-line parser raised something that is neither
    [MissingArgument] nor [UnknownArgument]; the factory raised something
    that is not [InvalidKey]; or the cipher, run on the text or on one of
    its pieces, raised.  The handlers are specific: an [InvalidKey] from
    the parser or a [MissingArgument] from the factory goes uncaught. *)
Theorem uncaught_exceptions (fuel : nat) (E : Env) (args : list string)
  (e : exn) :
  (exists st, main fuel E args = Some (Terminate e, st)) <->
  (processCommandLine E args default_settings = Throw e /\
   (forall msg, e <> MissingArgument msg) /\
   (forall msg, e <> UnknownArgument msg)) \/
  (exists settings inputText,
     reaches_cipher E args settings inputText /\
     cipherFactory E (cipherType settings) (cipherKey settings) = Throw e /\
     forall msg, e <> InvalidKey msg) \/
  (exists settings inputText cipher st,
     reaches_cipher E args settings inputText /\
     cipherFactory E (cipherType settings) (cipherKey settings)
     = Ok (Some cipher) /\
     process fuel E cipher settings inputText start = Some (Throw e, st)).
Proof.
  split.
  - intros [st H]. exact (main_Terminate_inv fuel E args e st H).
  - intros [(Hargs & Hm & Hu) | [H | H]].
    + unfold main. rewrite Hargs.
      destruct e; eauto; [destruct (Hm msg) | destruct (Hu msg)]; reflexivity.
    + destruct H as (settings & inputText & Hreach & Hfactory & Hk).
      rewrite (main_reaches_cipher fuel E args settings inputText Hreach).
      unfold encipher. rewrite Hfactory.
      destruct e; eauto. destruct (Hk msg). reflexivity.
    + destruct H as (settings & inputText & cipher & st & Hreach & Hfactory
                     & Hprocess).
      rewrite (main_reaches_cipher fuel E args settings inputText Hreach).
      unfold encipher. rewrite Hfactory, Hprocess. eauto.
Qed.

(** ** From the input to the output *)

(** X13.  With a cipher other than Caesar that accepts the text, [main]
    writes the result of one [applyCipher] call on the whole text read,
    followed by a line end: to the standard output when no output file is
    named, to the file and nowhere else when one is named and can be
    opened, returning 0 in both cases.  No poll is made: the outcome is the
    same for every budget of polls. *)
Theorem other_ciphers_end_to_end (fuel : nat) (E : Env) (args : list string)
  (settings : ProgramSettings) (inputText outputText : string)
  (cipher : Cipher) :
  reaches_cipher E args settings inputText ->
  cipherFactory E (cipherType settings) (cipherKey settings)
  = Ok (Some cipher) ->
  cipherType settings <> Caesar ->
  applyCipher cipher inputText (cipherMode settings) = Ok outputText ->
  (empty (outputFile settings) = true ->
   main fuel E args
   = Some (Return 0,
           {| cout := outputText ++ endl; cerr := ""; files := [];
              trace := [Apply inputText (cipherMode settings)] |})) /\
  (empty (outputFile settings) = false ->
   ofstream_good E (outputFile settings) = true ->
   main fuel E args
   = Some (Return 0,
           {| cout := ""; cerr := "";
              files := [(outputFile settings, outputText ++ endl)];
              trace := [Apply inputText (cipherMode settings)] |})).
Proof.
  intros Hreach Hfactory Htype Hout.
  rewrite (main_reaches_cipher fuel E args settings inputText Hreach).
  unfold encipher, process. rewrite Hfactory.
  destruct (CipherType_eqb_spec (cipherType settings) Caesar);
    [contradiction|].
  rewrite Hout. unfold write_output. split.
  - intros ->. reflexivity.
  - intros -> ->. reflexivity.
Qed.

Lemma other_ciphers_end_to_end_witness :
  reaches_cipher
    (desk {| helpRequested := false; versionRequested := false;
             inputFile := "in.txt"; outputFile := "out.txt";
             cipherKey := ""; cipherMode := Decrypt;
             cipherType := Playfair |} "" mirror) []
    {| helpRequested := false; versionRequested := false;
       inputFile := "in.txt"; outputFile := "out.txt";
       cipherKey := ""; cipherMode := Decrypt; cipherType := Playfair |}
    "FROMAFILE" /\
  main 0
    (desk {| helpRequested := false; versionRequested := false;
             inputFile := "in.txt"; outputFile := "out.txt";
             cipherKey := ""; cipherMode := Decrypt;
             cipherType := Playfair |} "" mirror) []
  = Some (Return 0,
          {| cout := ""; cerr := "";
             files := [("out.txt", "ELIFAMORF" ++ endl)];
             trace := [Apply "FROMAFILE" Decrypt] |}).
Proof.
  assert (H1 : reaches_cipher
                 (desk {| helpRequested := false; versionRequested := false;
                          inputFile := "in.txt"; outputFile := "out.txt";
                          cipherKey := ""; cipherMode := Decrypt;
                          cipherType := Playfair |} "" mirror) []
                 {| helpRequested := false; versionRequested := false;
                    inputFile := "in.txt"; outputFile := "out.txt";
                    cipherKey := ""; cipherMode := Decrypt;
                    cipherType := Playfair |}
                 "FROMAFILE") by (repeat split).
  split; [exact H1|].
  refine (proj2 (other_ciphers_end_to_end 0 _ [] _ "FROMAFILE" "ELIFAMORF"
                   mirror H1 eq_refl _ eq_refl) eq_refl eq_refl).
  discriminate.
Defined.

(** ** Waiting *)

(** X14.  A future that times out [d] times before it is ready costs [d]
    lines "waiting... " on the standard output, one for each poll that
    timed out, and nothing else: the error stream, the files and the
    trace are as they were. *)
Theorem one_line_per_timeout (status : nat -> future_status) (d : nat) :
  forall (fuel k : nat) (st : State),
    (forall j, (j < d)%nat -> status (k + j)%nat = timeout) ->
    status (k + d)%nat = ready ->
    (d < fuel)%nat ->
    exists st',
      wait_loop fuel status k st = Some st' /\
      cout st' = cout st ++ repeat_string d ("waiting... " ++ endl) /\
      same_but_cout st st'.
Proof.
  induction d as [|d IH]; intros fuel k st Hbefore Hready Hfuel.
  - destruct fuel as [|fuel]; [lia|]. simpl. rewrite Nat.add_0_r in Hready.
    rewrite Hready. exists st. split; [reflexivity|].
    split; [now rewrite append_empty_r | auto with wait].
  - destruct fuel as [|fuel]; [lia|]. cbn [wait_loop].
    pose proof (Hbefore 0%nat ltac:(lia)) as H0. rewrite Nat.add_0_r in H0.
    rewrite H0.
    destruct (IH fuel (S k) (to_cout ("waiting... " ++ endl) st))
      as (st' & Hloop & Hcout & Hsame).
    + intros j Hj. rewrite Nat.add_succ_l, <- Nat.add_succ_r.
      apply Hbefore. lia.
    + now rewrite Nat.add_succ_l, <- Nat.add_succ_r.
    + lia.
    + exists st'. split; [exact Hloop|]. split.
      * rewrite Hcout. cbn [cout to_cout repeat_string].
        now rewrite append_assoc.
      * eapply same_but_cout_trans; [|exact Hsame]. auto with wait.
Qed.

Lemma one_line_per_timeout_witness :
  (forall j, (j < 3)%nat -> sluggish 1 (0 + j)%nat = timeout) /\
  sluggish 1 (0 + 3)%nat = ready /\
  (3 < 4)%nat /\
  exists st',
    wait_loop 4 (sluggish 1) 0 start = Some st' /\
    cout st' = cout start ++ repeat_string 3 ("waiting... " ++ endl) /\
    same_but_cout start st'.
Proof.
  assert (H1 : forall j, (j < 3)%nat -> sluggish 1 (0 + j)%nat = timeout).
  { intros j Hj. unfold sluggish. simpl.
    destruct (Nat.ltb_spec j 3); [reflexivity | lia]. }
  assert (H2 : sluggish 1 (0 + 3)%nat = ready) by reflexivity.
  assert (H3 : (3 < 4)%nat) by lia.
  split; [exact H1 | split; [exact H2 | split; [exact H3|]]].
  exact (one_line_per_timeout (sluggish 1) 3 4 0 start H1 H2 H3).
Defined.

(** X15.  [main] has no deadline: with the Caesar cipher, if the first
    future is never seen ready (every poll times out, or the task was
    deferred), no number of polls lets [main] return. *)
Theorem caesar_run_has_no_deadline (fuel : nat) (E : Env)
  (args : list string) (settings : ProgramSettings) (inputText : string)
  (cipher : Cipher) :
  reaches_cipher E args settings inputText ->
  cipherFactory E (cipherType settings) (cipherKey settings)
  = Ok (Some cipher) ->
  cipherType settings = Caesar ->
  (forall k, wait_for E 0%nat k <> ready) ->
  main fuel E args = None.
Proof.
  intros Hreach Hfactory Htype Hnever.
  rewrite (main_reaches_cipher fuel E args settings inputText Hreach).
  unfold encipher, process. rewrite Hfactory, Htype. cbn [CipherType_eqb].
  unfold dispatch. rewrite launch_loop_all.
  unfold launched. cbn [map collect_loop].
  rewrite wait_loop_keeps_waiting; [reflexivity|].
  intros j _. apply Hnever.
Qed.

Lemma caesar_run_has_no_deadline_witness :
  reaches_cipher
    (terminal (with_key Caesar "3" Encrypt) "hello" (fun _ _ => deferred)) []
    (with_key Caesar "3" Encrypt) "HELLO" /\
  (forall k, wait_for
               (terminal (with_key Caesar "3" Encrypt) "hello"
                  (fun _ _ => deferred)) 0%nat k <> ready) /\
  main 1000
    (terminal (with_key Caesar "3" Encrypt) "hello" (fun _ _ => deferred)) []
  = None.
Proof.
  assert (H1 : reaches_cipher
                 (terminal (with_key Caesar "3" Encrypt) "hello"
                    (fun _ _ => deferred)) []
                 (with_key Caesar "3" Encrypt) "HELLO") by (repeat split).
  assert (H2 : forall k, wait_for
                 (terminal (with_key Caesar "3" Encrypt) "hello"
                    (fun _ _ => deferred)) 0%nat k <> ready)
    by (intros k; discriminate).
  split; [exact H1 | split; [exact H2|]].
  exact (caesar_run_has_no_deadline 1000 _ [] _ "HELLO" (caesar 3)
           H1 eq_refl eq_refl H2).
Defined.

Lemma same_but_cout_sym a b : same_but_cout a b -> same_but_cout b a.
Proof. intros (H1 & H2 & H3). repeat split; congruence. Qed.

Lemma write_output_same_but_cout E settings outputText a b :
  same_but_cout a b ->
  fst (write_output E settings outputText a)
  = fst (write_output E settings outputText b) /\
  same_but_cout (snd (write_output E settings outputText a))
                (snd (write_output E settings outputText b)).
Proof.
  intros (H1 & H2 & H3). unfold write_output.
  destruct (negb (empty (outputFile settings)));
    [destruct (ofstream_good E (outputFile settings))|];
    split; try reflexivity; repeat split; cbn; congruence.
Qed.

Lemma process_polls fuel1 fuel2 E polls1 polls2 cipher settings inputText st
  r1 st1 r2 st2 :
  process fuel1 (with_polls E polls1) cipher settings inputText st
  = Some (r1, st1) ->
  process fuel2 (with_polls E polls2) cipher settings inputText st
  = Some (r2, st2) ->
  r1 = r2 /\ same_but_cout st1 st2.
Proof.
  unfold process.
  destruct (CipherType_eqb (cipherType settings) Caesar).
  - cbn [wait_for with_polls]. unfold dispatch. rewrite launch_loop_all.
    intros H1 H2.
    apply collect_loop_result in H1 as [-> S1].
    apply collect_loop_result in H2 as [-> S2].
    split; [reflexivity|].
    eapply same_but_cout_trans; [apply same_but_cout_sym; exact S1 | exact S2].
  - intros [= <- <-] [= <- <-]. split; [reflexivity | auto with wait].
Qed.

(** X16.  What the polls observe changes nothing but the "waiting... "
    lines: two runs of [main] on the same arguments in environments that
    differ only in what [wait_for] reports end, if both end, in the same
    way, with the same error stream, the same files and the same calls. *)
Theorem polls_change_only_the_waiting_lines (E : Env)
  (polls1 polls2 : nat -> nat -> future_status) (fuel1 fuel2 : nat)
  (args : list string) (ex1 ex2 : exit) (st1 st2 : State) :
  main fuel1 (with_polls E polls1) args = Some (ex1, st1) ->
  main fuel2 (with_polls E polls2) args = Some (ex2, st2) ->
  ex1 = ex2 /\ same_but_cout st1 st2.
Proof.
  unfold main. cbn [processCommandLine with_polls].
  destruct (processCommandLine E args default_settings) as [settings|e].
  2:{ destruct e; intros [= <- <-] [= <- <-]; auto with wait. }
  destruct (helpRequested settings).
  { intros [= <- <-] [= <- <-]; auto with wait. }
  destruct (versionRequested settings).
  { intros [= <- <-] [= <- <-]; auto with wait. }
  change (read_input (with_polls E polls1) settings)
    with (read_input E settings).
  change (read_input (with_polls E polls2) settings)
    with (read_input E settings).
  destruct (read_input E settings) as [inputText|].
  2:{ intros [= <- <-] [= <- <-]; auto with wait. }
  unfold encipher. cbn [cipherFactory with_polls].
  destruct (cipherFactory E (cipherType settings) (cipherKey settings))
    as [[cipher|]|e].
  - destruct (process fuel1 (with_polls E polls1) cipher settings inputText
                start) as [[r1 s1]|] eqn:P1; [|discriminate].
    destruct (process fuel2 (with_polls E polls2) cipher settings inputText
                start) as [[r2 s2]|] eqn:P2;
      [|destruct r1; discriminate].
    destruct (process_polls _ _ _ _ _ _ _ _ _ _ _ _ _ P1 P2) as [<- Hsame].
    destruct r1 as [outputText|e].
    + change (write_output (with_polls E polls1) settings outputText s1)
        with (write_output E settings outputText s1).
      change (write_output (with_polls E polls2) settings outputText s2)
        with (write_output E settings outputText s2).
      destruct (write_output_same_but_cout E settings outputText s1 s2 Hsame)
        as [Hex Hst].
      destruct (write_output E settings outputText s1) as [x1 y1].
      destruct (write_output E settings outputText s2) as [x2 y2].
      cbn in Hex, Hst. intros [= <- <-] [= <- <-]. auto.
    + intros [= <- <-] [= <- <-]. auto.
  - intros [= <- <-] [= <- <-]; auto with wait.
  - destruct e; intros [= <- <-] [= <- <-]; auto with wait.
Qed.

Lemma polls_change_only_the_waiting_lines_witness :
  main 1 (with_polls (terminal (with_key Caesar "3" Encrypt) "hello" prompt)
            prompt) []
  = Some (Return 0,
          {| cout := "KHOOR" ++ endl; cerr := ""; files := [];
             trace := [Async 0 1; Async 1 1; Async 2 1; Async 3 2] |}) /\
  main 6 (with_polls (terminal (with_key Caesar "3" Encrypt) "hello" prompt)
            sluggish) []
  = Some (Return 0,
          {| cout := repeat_string 14 ("waiting... " ++ endl)
                     ++ "KHOOR" ++ endl;
             cerr := ""; files := [];
             trace := [Async 0 1; Async 1 1; Async 2 1; Async 3 2] |}) /\
  Return 0 = Return 0.
Proof.
  assert (H1 : main 1 (with_polls
                         (terminal (with_key Caesar "3" Encrypt) "hello" prompt)
                         prompt) []
               = Some (Return 0,
                       {| cout := "KHOOR" ++ endl; cerr := ""; files := [];
                          trace := [Async 0 1; Async 1 1; Async 2 1;
                                    Async 3 2] |})) by (vm_compute; reflexivity).
  assert (H2 : main 6 (with_polls
                         (terminal (with_key Caesar "3" Encrypt) "hello" prompt)
                         sluggish) []
               = Some (Return 0,
                       {| cout := repeat_string 14 ("waiting... " ++ endl)
                                  ++ "KHOOR" ++ endl;
                          cerr := ""; files := [];
                          trace := [Async 0 1; Async 1 1; Async 2 1;
                                    Async 3 2] |})) by (vm_compute; reflexivity).
  split; [exact H1 | split; [exact H2|]].
  exact (proj1 (polls_change_only_the_waiting_lines
                  (terminal (with_key Caesar "3" Encrypt) "hello" prompt)
                  prompt sluggish 1 6 [] _ _ _ _ H1 H2)).
Defined.

(** ** The whole run *)

(** X17.  With the Caesar type, a cipher that works one character at a
    time, a text whose length leaves remainder 0 or 1 when divided by 4,
    no output file, and every future ready at its first poll, [main]
    prints what one call on the whole text gives, followed by a line end,
    and returns 0. *)
Theorem caesar_end_to_end (E : Env) (args : list string)
  (settings : ProgramSettings) (inputText : string) (cipher : Cipher)
  (f : ascii -> ascii) :
  reaches_cipher E args settings inputText ->
  cipherFactory E (cipherType settings) (cipherKey settings)
  = Ok (Some cipher) ->
  cipherType settings = Caesar ->
  charwise cipher (cipherMode settings) f ->
  3 * size inputText <= SizeT.max ->
  size inputText mod 4 <= 1 ->
  empty (outputFile settings) = true ->
  (forall n, wait_for E n 0%nat = ready) ->
  main 1 E args
  = Some (Return 0,
          {| cout := map_string f inputText ++ endl; cerr := ""; files := [];
             trace := launches (size inputText) |}).
Proof.
  intros Hreach Hfactory Htype Hf Hfit Hr Hfile Hready.
  rewrite (main_reaches_cipher 1 E args settings inputText Hreach).
  unfold encipher, process. rewrite Hfactory, Htype. cbn [CipherType_eqb].
  unfold dispatch. rewrite launch_loop_all.
  assert (Hg : gather (launched (fn cipher inputText (cipherMode settings))
                         (size inputText)) ""
               = Ok (map_string f inputText)).
  { rewrite (charwise_gather cipher _ f inputText Hf).
    now rewrite pieces_exact_when_remainder_small by assumption. }
  revert Hg. unfold launched. cbn [map gather collect_loop wait_loop].
  rewrite !Hready. unfold get, async. cbn [shared_state].
  destruct (fn cipher inputText (cipherMode settings)
              (segment_first (size inputText) 0) _) as [s0|]; [|discriminate].
  cbn [bind].
  destruct (fn cipher inputText (cipherMode settings)
              (segment_first (size inputText) 1) _) as [s1|]; [|discriminate].
  cbn [bind].
  destruct (fn cipher inputText (cipherMode settings)
              (segment_first (size inputText) 2) _) as [s2|]; [|discriminate].
  cbn [bind].
  destruct (fn cipher inputText (cipherMode settings)
              (segment_first (size inputText) 3) _) as [s3|]; [|discriminate].
  cbn [bind]. intros [= Hout]. cbn [append] in *. rewrite Hout.
  unfold write_output. rewrite Hfile. reflexivity.
Qed.

Lemma caesar_end_to_end_witness :
  reaches_cipher (terminal (with_key Caesar "3" Decrypt) "khoor" prompt) []
    (with_key Caesar "3" Decrypt) "KHOOR" /\
  3 * size "KHOOR" <= SizeT.max /\
  size "KHOOR" mod 4 <= 1 /\
  main 1 (terminal (with_key Caesar "3" Decrypt) "khoor" prompt) []
  = Some (Return 0,
          {| cout := "HELLO" ++ endl; cerr := ""; files := [];
             trace := launches (size "KHOOR") |}).
Proof.
  assert (H1 : reaches_cipher
                 (terminal (with_key Caesar "3" Decrypt) "khoor" prompt) []
                 (with_key Caesar "3" Decrypt) "KHOOR") by (repeat split).
  assert (H2 : 3 * size "KHOOR" <= SizeT.max) by (vm_compute; discriminate).
  assert (H3 : size "KHOOR" mod 4 <= 1) by (vm_compute; discriminate).
  split; [exact H1 | split; [exact H2 | split; [exact H3|]]].
  exact (caesar_end_to_end
           (terminal (with_key Caesar "3" Decrypt) "khoor" prompt) []
           (with_key Caesar "3" Decrypt) "KHOOR" (caesar 3)
           (Alphabet.shift_char ((- 3) mod Alphabet.alphabetSize))
           H1 eq_refl eq_refl (fun text => eq_refl) H2 H3 eq_refl
           (fun n => eq_refl)).
Defined.

(** X18.  [main] brings no failure of its own: if the command-line parser
    raises nothing but [MissingArgument] and [UnknownArgument], the
    factory nothing but [InvalidKey], [transformChar] gives back letters
    only, and the ciphers the factory builds return on every letter-only
    text, then a run of [main] that ends does so by returning 0 or 1,
    never on an uncaught exception; in particular no [substr] of the
    dispatcher ever raises. *)
Theorem main_never_crashes (fuel : nat) (E : Env) (args : list string)
  (ex : exit) (st : State) :
  (forall e, processCommandLine E args default_settings = Throw e ->
             exists msg, e = MissingArgument msg \/ e = UnknownArgument msg) ->
  (forall type key e, cipherFactory E type key = Throw e ->
                      exists msg, e = InvalidKey msg) ->
  (forall c, letters_only (transformChar E c) = true) ->
  (forall type key cipher,
     cipherFactory E type key = Ok (Some cipher) ->
     forall text mode, letters_only text = true ->
                       exists out, applyCipher cipher text mode = Ok out) ->
  main fuel E args = Some (ex, st) ->
  ex = Return 0 \/ ex = Return 1.
Proof.
  intros Hparser Hfactory Hletters Htotal H.
  destruct ex as [code|e].
  - apply main_classified in H as [[-> _] | [[-> _] | [e H]]];
      [auto | auto | discriminate].
  - exfalso.
    apply main_Terminate_inv in H as [(Hargs & Hm & Hu) | [H | H]].
    + destruct (Hparser e Hargs) as [msg [-> | ->]];
        [exact (Hm msg eq_refl) | exact (Hu msg eq_refl)].
    + destruct H as (settings & inputText & _ & Hthrow & Hk).
      destruct (Hfactory _ _ e Hthrow) as [msg ->]. exact (Hk msg eq_refl).
    + destruct H as (settings & inputText & cipher & st' & Hreach & Hbuilt
                     & Hprocess).
      destruct Hreach as (_ & _ & _ & Hread).
      pose proof (read_input_letters_only E settings inputText Hletters Hread)
        as Hinput.
      pose proof (Htotal _ _ cipher Hbuilt) as Hcipher.
      unfold process in Hprocess.
      destruct (CipherType_eqb (cipherType settings) Caesar).
      * apply dispatch_gathers in Hprocess. symmetry in Hprocess.
        apply gather_launched_Throw in Hprocess as (i & Hi & Hthrow).
        rewrite fn_in_range in Hthrow by exact Hi.
        destruct (Hcipher _ (cipherMode settings)
                    (letters_only_substring inputText
                       (Z.to_nat (segment_first (size inputText) i))
                       (Z.to_nat (segment_len (size inputText) i)) Hinput))
          as [out Hout].
        congruence.
      * injection Hprocess as Hthrow _.
        destruct (Hcipher inputText (cipherMode settings) Hinput)
          as [out Hout].
        congruence.
Qed.

Lemma caesar_factory_only_invalid_key (type : CipherType) (key : string)
  (e : exn) :
  caesar_factory type key = Throw e -> exists msg, e = InvalidKey msg.
Proof.
  destruct type; simpl; try discriminate. unfold CaesarCipher.
  destruct (parse_integer key); simpl; [discriminate|].
  intros [= <-]. eauto.
Qed.

Lemma caesar_factory_total (type : CipherType) (key : string)
  (cipher : Cipher) :
  caesar_factory type key = Ok (Some cipher) ->
  forall text mode, letters_only text = true ->
                    exists out, applyCipher cipher text mode = Ok out.
Proof.
  destruct type; simpl; try discriminate. unfold CaesarCipher.
  destruct (parse_integer key); simpl; [|discriminate].
  intros [= <-] text mode _. eexists. reflexivity.
Qed.

Lemma main_never_crashes_witness :
  main 1 (terminal (with_key Caesar "-3" Encrypt) "Hello, world" prompt) []
  = Some (Return 0,
          {| cout := "EBIITLOIA" ++ endl; cerr := ""; files := [];
             trace := [Async 0 2; Async 2 2; Async 5 2; Async 7 4] |}) /\
  (Return 0 = Return 0 \/ Return 0 = Return 1).
Proof.
  assert (H : main 1 (terminal (with_key Caesar "-3" Encrypt) "Hello, world"
                        prompt) []
              = Some (Return 0,
                      {| cout := "EBIITLOIA" ++ endl; cerr := ""; files := [];
                         trace := [Async 0 2; Async 2 2; Async 5 2;
                                   Async 7 4] |})) by (vm_compute; reflexivity).
  split; [exact H|].
  refine (main_never_crashes 1 _ [] _ _ _ _ _ _ H).
  - intros e He. discriminate.
  - exact caesar_factory_only_invalid_key.
  - exact upper_letters_letters_only.
  - exact caesar_factory_total.
Defined.

(* ===================================================================== *)
(** * Part IV: the three variants never fail on letters *)
(* ===================================================================== *)

Section Lookups.

Import Variants.

Lemma position_In (c : ascii) (cells : list ascii) :
  In c cells ->
  exists p, position c cells = Some p /\ (p < List.length cells)%nat.
Proof.
  induction cells as [|x rest IH]; intros Hin; [destruct Hin|].
  simpl. destruct (Ascii.eqb_spec x c) as [_|Hne].
  - exists 0%nat. split; [reflexivity | simpl; lia].
  - destruct Hin as [Heq | Hin]; [contradiction|].
    destruct (IH Hin) as (p & -> & Hp). exists (S p).
    split; [reflexivity | simpl; lia].
Qed.

Lemma toupper_letter (c : ascii) :
  isalpha c = true -> In (toupper c) alphabet.
Proof.
  destruct c as [[] [] [] [] [] [] [] []]; intros H;
    try discriminate H; vm_compute; tauto.
Qed.

Lemma index_of_letter (c : ascii) :
  isalpha c = true -> exists i, index_of c = Some i /\ (i < 26)%nat.
Proof.
  intros H. apply toupper_letter, position_In in H. exact H.
Qed.

Lemma letter_at_some (i : nat) :
  (i < 26)%nat -> exists l, letter_at i = Some l.
Proof.
  intros H. unfold letter_at.
  destruct (nth_error alphabet i) as [l|] eqn:Hnth; [eauto|].
  apply nth_error_None in Hnth. simpl in Hnth. lia.
Qed.

(** A letter can always be moved, by any amount. *)
Lemma shift_letter_total (k : nat) (c : ascii) :
  isalpha c = true -> exists c', shift_letter k c = Ok c'.
Proof.
  intros H. unfold shift_letter.
  destruct (index_of_letter c H) as (i & -> & _).
  destruct (letter_at_some ((i + k) mod 26)) as [l ->]; [|eauto].
  apply Nat.mod_upper_bound. discriminate.
Qed.

(** What is not a letter is left as it is. *)
Lemma shift_letter_passes (k : nat) (c : ascii) :
  isalpha c = false -> shift_letter k c = Ok c.
Proof.
  destruct c as [[] [] [] [] [] [] [] []]; intros H;
    try discriminate H; reflexivity.
Qed.

Lemma shift_letter_returns (k : nat) (c : ascii) :
  exists c', shift_letter k c = Ok c'.
Proof.
  destruct (isalpha c) eqn:Hc; [now apply shift_letter_total|].
  rewrite shift_letter_passes by exact Hc. eauto.
Qed.

Lemma caesar_text_total (k : nat) (text : string) :
  letters_only text = true -> exists out, caesar_text k text = Ok out.
Proof.
  induction text as [|c rest IH]; intros H; cbn [caesar_text]; [eauto|].
  simpl in H. apply andb_true_iff in H as [Hc Hrest].
  destruct (shift_letter_total k c Hc) as [c' ->].
  destruct (IH Hrest) as [out ->]. simpl. eauto.
Qed.

(** With a key that holds a letter, the key position asked for is
    always there. *)
Lemma vigenere_text_total (keys : list nat) (mode : CipherMode)
  (text : string) :
  keys <> [] ->
  letters_only text = true ->
  forall n, exists out, vigenere_text keys mode n text = Ok out.
Proof.
  intros Hkeys.
  induction text as [|c rest IH]; intros H n; cbn [vigenere_text]; [eauto|].
  simpl in H. apply andb_true_iff in H as [Hc Hrest]. rewrite Hc.
  destruct (nth_error keys (n mod List.length keys)) as [k|] eqn:Hnth.
  - destruct (shift_letter_total
                (match mode with Encrypt => k | Decrypt => (26 - k)%nat end)
                c Hc) as [c' ->].
    destruct (IH Hrest (S n)) as [out ->]. simpl. eauto.
  - apply nth_error_None in Hnth.
    assert (List.length keys <> 0%nat)
      by (destruct keys; [contradiction | discriminate]).
    pose proof (Nat.mod_upper_bound n (List.length keys) ltac:(assumption)).
    lia.
Qed.

End Lookups.

Section Square.

Import Variants.

Lemma existsb_eqb_In (c : ascii) (cells : list ascii) :
  existsb (Ascii.eqb c) cells = true <-> In c cells.
Proof.
  rewrite existsb_exists. split.
  - intros (x & Hin & Heq). apply Ascii.eqb_eq in Heq. now subst.
  - intros Hin. exists c. split; [exact Hin | apply Ascii.eqb_refl].
Qed.

Lemma place_keeps (new : list ascii) :
  forall cells x, In x cells -> In x (place cells new).
Proof.
  induction new as [|c rest IH]; intros cells x Hin; simpl; [exact Hin|].
  destruct (existsb (Ascii.eqb c) cells); apply IH; [exact Hin|].
  apply in_or_app. now left.
Qed.

Lemma place_adds (new : list ascii) :
  forall cells x, In x new -> In x (place cells new).
Proof.
  induction new as [|c rest IH]; intros cells x Hin; simpl; [destruct Hin|].
  destruct (existsb (Ascii.eqb c) cells) eqn:Hc.
  - destruct Hin as [<- | Hin]; [|now apply IH].
    apply place_keeps. now apply existsb_eqb_In.
  - destruct Hin as [<- | Hin]; [|now apply IH].
    apply place_keeps. apply in_or_app. right. now left.
Qed.

Lemma place_only (new : list ascii) :
  forall cells x, In x (place cells new) -> In x cells \/ In x new.
Proof.
  induction new as [|c rest IH]; intros cells x Hin; simpl in *; [now left|].
  destruct (existsb (Ascii.eqb c) cells).
  - destruct (IH _ _ Hin); auto.
  - destruct (IH _ _ Hin) as [H | H]; [|auto].
    apply in_app_or in H as [H | [<- | []]]; auto.
Qed.

Lemma place_NoDup (new : list ascii) :
  forall cells, NoDup cells -> NoDup (place cells new).
Proof.
  induction new as [|c rest IH]; intros cells Hnd; simpl; [exact Hnd|].
  destruct (existsb (Ascii.eqb c) cells) eqn:Hc; apply IH; [exact Hnd|].
  apply NoDup_app; [exact Hnd | repeat constructor; intros [] |].
  intros x Hx [<- | []].
  apply existsb_eqb_In in Hx. congruence.
Qed.

(** The 25 letters of the square, in the order of the alphabet. *)
Lemma square_of_empty_key : List.length (place [] (map merge_ij alphabet)) = 25%nat.
Proof. reflexivity. Qed.

Lemma normalise_letter (c : ascii) :
  isalpha c = true -> In (normalise c) (map merge_ij alphabet).
Proof.
  intros H. unfold normalise. apply in_map, toupper_letter, H.
Qed.

Lemma key_letters_in_alphabet (key : string) (x : ascii) :
  In x (key_letters key) -> In x (map merge_ij alphabet).
Proof.
  induction key as [|c rest IH]; simpl; [intros []|].
  destruct (isalpha c) eqn:Hc; [|exact IH].
  intros [<- | Hin]; [now apply normalise_letter | now apply IH].
Qed.

Lemma square_of_eq (key : string) :
  square_of key = place (place [] (key_letters key)) (map merge_ij alphabet).
Proof. reflexivity. Qed.

(** Whatever the key, the square holds each of the 25 letters once. *)
Lemma square_of_NoDup (key : string) : NoDup (square_of key).
Proof. rewrite square_of_eq. apply place_NoDup, place_NoDup. constructor. Qed.

Lemma square_of_only (key : string) (x : ascii) :
  In x (square_of key) -> In x (map merge_ij alphabet).
Proof.
  rewrite square_of_eq.
  pose proof (key_letters_in_alphabet key) as HK. revert HK.
  generalize (map merge_ij alphabet) as M. intros M HK Hx.
  apply place_only in Hx as [Hx | Hx]; [|exact Hx].
  apply place_only in Hx as [[] | Hx].
  exact (HK x Hx).
Qed.

Lemma square_of_all (key : string) (x : ascii) :
  In x (map merge_ij alphabet) -> In x (square_of key).
Proof.
  rewrite square_of_eq. generalize (map merge_ij alphabet) as M.
  intros M Hx. now apply place_adds.
Qed.

Lemma square_of_length (key : string) : List.length (square_of key) = 25%nat.
Proof.
  rewrite <- square_of_empty_key. apply Nat.le_antisymm.
  - apply NoDup_incl_length; [apply square_of_NoDup|].
    intros x Hx. apply square_of_only in Hx. revert Hx.
    generalize (map merge_ij alphabet) as M. intros M Hx.
    now apply place_adds.
  - apply NoDup_incl_length; [apply place_NoDup; constructor|].
    intros x Hx. apply square_of_all. revert Hx.
    generalize (map merge_ij alphabet) as M. intros M Hx.
    now apply place_only in Hx as [[] | Hx].
Qed.

Lemma square_of_has (key : string) (c : ascii) :
  isalpha c = true -> In (normalise c) (square_of key).
Proof. intros H. now apply square_of_all, normalise_letter. Qed.

Lemma square_of_has_filler (key : string) (c : ascii) :
  In (filler c) (square_of key).
Proof.
  unfold filler. destruct (Ascii.eqb c "X").
  - exact (square_of_has key "Q" eq_refl).
  - exact (square_of_has key "X" eq_refl).
Qed.

(** In a square of 25 cells, the rule for a pair of letters of the
    square always lands on cells of the square. *)
Lemma substitute_total (square : list ascii) (mode : CipherMode)
  (a b : ascii) :
  List.length square = 25%nat -> In a square -> In b square ->
  exists x y, substitute square mode (a, b) = Ok (x, y) /\
              In x square /\ In y square.
Proof.
  intros Hlen Ha Hb. unfold substitute. cbn [fst snd].
  destruct (position_In a square Ha) as (p1 & -> & Hp1).
  destruct (position_In b square Hb) as (p2 & -> & Hp2).
  rewrite Hlen in Hp1, Hp2.
  assert (R1 : (p1 / 5 < 5)%nat) by (apply Nat.Div0.div_lt_upper_bound; lia).
  assert (R2 : (p2 / 5 < 5)%nat) by (apply Nat.Div0.div_lt_upper_bound; lia).
  assert (M : forall n, (n mod 5 < 5)%nat)
    by (intros n; apply Nat.mod_upper_bound; discriminate).
  pose proof (M p1) as C1. pose proof (M p2) as C2.
  set (step := match mode with Encrypt => 1%nat | Decrypt => 4%nat end).
  pose proof (M (p1 mod 5 + step)%nat) as S1.
  pose proof (M (p2 mod 5 + step)%nat) as S2.
  pose proof (M (p1 / 5 + step)%nat) as T1.
  pose proof (M (p2 / 5 + step)%nat) as T2.
  assert (Hcell : forall q, (q < 25)%nat ->
                    exists x, nth_error square q = Some x /\ In x square).
  { intros q Hq. destruct (nth_error square q) as [x|] eqn:Hnth.
    - exists x. split; [reflexivity | eapply nth_error_In; eauto].
    - apply nth_error_None in Hnth. lia. }
  destruct (Nat.eqb (p1 / 5) (p2 / 5)); [|destruct (Nat.eqb (p1 mod 5) (p2 mod 5))].
  - destruct (Hcell (5 * (p1 / 5) + (p1 mod 5 + step) mod 5)%nat ltac:(lia))
      as (x & -> & Hx).
    destruct (Hcell (5 * (p2 / 5) + (p2 mod 5 + step) mod 5)%nat ltac:(lia))
      as (y & -> & Hy).
    eauto.
  - destruct (Hcell (5 * ((p1 / 5 + step) mod 5) + p1 mod 5)%nat ltac:(lia))
      as (x & -> & Hx).
    destruct (Hcell (5 * ((p2 / 5 + step) mod 5) + p2 mod 5)%nat ltac:(lia))
      as (y & -> & Hy).
    eauto.
  - destruct (Hcell (5 * (p1 / 5) + p2 mod 5)%nat ltac:(lia)) as (x & -> & Hx).
    destruct (Hcell (5 * (p2 / 5) + p1 mod 5)%nat ltac:(lia)) as (y & -> & Hy).
    eauto.
Qed.

Lemma substitute_all_total (square : list ascii) (mode : CipherMode)
  (pairs : list (ascii * ascii)) :
  List.length square = 25%nat ->
  Forall (fun two => In (fst two) square /\ In (snd two) square) pairs ->
  exists out, substitute_all square mode pairs = Ok out.
Proof.
  intros Hlen. induction 1 as [|[a b] rest [Ha Hb] _ IH];
    cbn [substitute_all]; [eauto|].
  destruct (substitute_total square mode a b Hlen Ha Hb) as (x & y & -> & _).
  destruct IH as [out ->]. cbn [bind]. eauto.
Qed.

Lemma text_letters_total (key : string) (text : string) :
  letters_only text = true ->
  exists letters,
    text_letters text = Ok letters /\
    Forall (fun x => In x (square_of key)) letters.
Proof.
  induction text as [|c rest IH]; intros H; cbn [text_letters]; [eauto|].
  simpl in H. apply andb_true_iff in H as [Hc Hrest]. rewrite Hc.
  destruct (IH Hrest) as (letters & -> & Hall). cbn [bind].
  eexists. split; [reflexivity|].
  constructor; [now apply square_of_has | exact Hall].
Qed.

Lemma digraphs_two (a b : ascii) (rest : list ascii) :
  digraphs (a :: b :: rest)
  = if Ascii.eqb a b then (a, filler a) :: digraphs (b :: rest)
    else (a, b) :: digraphs rest.
Proof. reflexivity. Qed.

(** The pairs made of letters of the square, fillers included, are pairs
    of letters of the square. *)
Lemma digraphs_in_square (key : string) (n : nat) :
  forall letters,
    (List.length letters <= n)%nat ->
    Forall (fun x => In x (square_of key)) letters ->
    Forall (fun two => In (fst two) (square_of key) /\
                       In (snd two) (square_of key)) (digraphs letters).
Proof.
  induction n as [|n IH]; intros letters Hn Hall.
  - destruct letters; [constructor | simpl in Hn; lia].
  - destruct letters as [|a [|b rest]]; [| |rewrite digraphs_two].
    + constructor.
    + inversion Hall; subst. repeat constructor; [assumption|].
      apply square_of_has_filler.
    + inversion Hall as [|? ? Ha Htail]; subst.
      inversion Htail as [|? ? Hb Hrest]; subst.
      destruct (Ascii.eqb a b).
      * constructor; [split; [exact Ha | apply square_of_has_filler]|].
        apply IH; [simpl in *; lia | exact Htail].
      * constructor; [split; assumption|].
        apply IH; [simpl in *; lia | exact Hrest].
Qed.

Lemma fixed_pairs_in_square (key : string) (n : nat) :
  forall letters,
    (List.length letters <= n)%nat ->
    Forall (fun x => In x (square_of key)) letters ->
    Forall (fun two => In (fst two) (square_of key) /\
                       In (snd two) (square_of key))
           (fst (fixed_pairs letters)).
Proof.
  induction n as [|n IH]; intros letters Hn Hall.
  - destruct letters; [constructor | simpl in Hn; lia].
  - destruct letters as [|a [|b rest]]; cbn [fixed_pairs]; try constructor.
    + inversion Hall as [|? ? Ha Htail]; subst.
      inversion Htail as [|? ? Hb Hrest]; subst.
      specialize (IH rest ltac:(simpl in *; lia) Hrest).
      destruct (fixed_pairs rest) as [pairs alone]. cbn [fst] in *.
      constructor; [split; assumption | exact IH].
Qed.

Lemma playfair_text_total (key : string) (mode : CipherMode)
  (text : string) :
  letters_only text = true ->
  exists out, playfair_text (square_of key) mode text = Ok out.
Proof.
  intros H. unfold playfair_text.
  destruct (text_letters_total key text H) as (letters & -> & Hall).
  cbn [bind]. destruct mode.
  - apply substitute_all_total; [apply square_of_length|].
    now apply (digraphs_in_square key (List.length letters)).
  - pose proof (fixed_pairs_in_square key (List.length letters) letters
                  (Nat.le_refl _) Hall) as Hpairs.
    destruct (fixed_pairs letters) as [pairs alone]. cbn [fst] in Hpairs.
    destruct (substitute_all_total (square_of key) Decrypt pairs
                (square_of_length key) Hpairs) as [out ->].
    cbn [bind]. eauto.
Qed.

End Square.

Section Built.

Import Variants.

(** The Caesar variant with its look-ups gives what the shift on
    character codes gives: checked on every character and every shift. *)
Lemma shift_letter_table :
  forallb
    (fun n =>
       forallb
         (fun k =>
            let c := ascii_of_nat n in
            match shift_letter k c with
            | Ok x => Ascii.eqb x (Alphabet.shift_char (Z.of_nat k) c)
            | Throw _ => false
            end)
         (seq 0 26))
    (seq 0 256) = true.
Proof. vm_compute. reflexivity. Qed.

Lemma shift_letter_agrees (k : nat) (c : ascii) :
  (k < 26)%nat ->
  shift_letter k c = Ok (Alphabet.shift_char (Z.of_nat k) c).
Proof.
  intros Hk. pose proof shift_letter_table as T.
  rewrite forallb_forall in T.
  specialize (T (nat_of_ascii c)).
  rewrite forallb_forall in T.
  specialize (T ltac:(apply in_seq; pose proof (nat_ascii_bounded c); lia) k
                ltac:(apply in_seq; lia)).
  cbv zeta in T. rewrite ascii_nat_embedding in T.
  destruct (shift_letter k c) as [x|]; [|discriminate].
  apply Ascii.eqb_eq in T. now subst.
Qed.

Lemma effective_shift_bound (key : Z) (mode : CipherMode) :
  (effective_shift key mode < 26)%nat.
Proof.
  unfold effective_shift.
  destruct mode; [pose proof (Z.mod_pos_bound key 26 ltac:(lia))
                 | pose proof (Z.mod_pos_bound (- key) 26 ltac:(lia))]; lia.
Qed.

Lemma caesar_models_agree (key : Z) (mode : CipherMode) (text : string) :
  caesar_text (effective_shift key mode) text
  = applyCipher (caesar key) text mode.
Proof.
  cbn [applyCipher caesar].
  assert (Hk : Z.of_nat (effective_shift key mode)
               = match mode with
                 | Encrypt => key mod Alphabet.alphabetSize
                 | Decrypt => (- key) mod Alphabet.alphabetSize
                 end).
  { unfold effective_shift, Alphabet.alphabetSize.
    destruct mode; [pose proof (Z.mod_pos_bound key 26 ltac:(lia))
                   | pose proof (Z.mod_pos_bound (- key) 26 ltac:(lia))]; lia. }
  rewrite <- Hk.
  pose proof (effective_shift_bound key mode) as Hb.
  generalize dependent (effective_shift key mode). intros k _ Hb.
  induction text as [|c rest IH]; [reflexivity|].
  cbn [caesar_text map_string].
  rewrite (shift_letter_agrees k c Hb). cbn [bind].
  destruct (caesar_text k rest) as [out|e];
    [|discriminate]. injection IH as ->. reflexivity.
Qed.

(** Each variant, once its constructor has accepted the key, returns on
    every letter-only text: the index of a letter is found, the key
    position asked for exists, the cells asked of the square exist. *)
Lemma build_total (type : CipherType) (key : string) (built : Cipher) :
  build type key = Ok (Some built) ->
  forall text mode, letters_only text = true ->
                    exists out, applyCipher built text mode = Ok out.
Proof.
  destruct type; unfold build.
  - unfold build_caesar. destruct (parse_integer key) as [k|];
      [|discriminate].
    intros [= <-] text mode H. cbn [applyCipher].
    now apply caesar_text_total.
  - unfold build_playfair. destruct (key_letters key) as [|l ls];
      [discriminate|].
    intros [= <-] text mode H. cbn [applyCipher].
    now apply playfair_text_total.
  - unfold build_vigenere. destruct (key_indices key) as [|i keys] eqn:Hkeys;
      [discriminate|].
    intros [= <-] text mode H. cbn [applyCipher].
    apply vigenere_text_total; [discriminate | exact H].
Qed.

End Built.

(** The variants on the examples of spec section 8, and at the edge of
    their domain. *)
Example variants_on_examples :
  (exists built,
     Variants.build Caesar "3" = Ok (Some built) /\
     applyCipher built "HELLO" Encrypt = Ok "KHOOR" /\
     applyCipher built "KHOOR" Decrypt = Ok "HELLO" /\
     applyCipher built "Hello, World" Encrypt = Ok "Khoor, Zruog") /\
  (exists built,
     Variants.build Vigenere "key" = Ok (Some built) /\
     applyCipher built "Hello, World" Encrypt = Ok "Rijvs, Uyvjn" /\
     applyCipher built "Rijvs, Uyvjn" Decrypt = Ok "Hello, World") /\
  (exists built,
     Variants.build Playfair "playfair example" = Ok (Some built) /\
     applyCipher built "HIDETHEGOLDINTHETREESTUMP" Encrypt
     = Ok "BMODZBXDNABEKUDMUIXMMOUVIF" /\
     applyCipher built "BMODZBXDNABEKUDMUIXMMOUVIF" Decrypt
     = Ok "HIDETHEGOLDINTHETREXESTUMP" /\
     applyCipher built "HIDE THE GOLD" Encrypt
     = Throw (other_exception "not a letter")) /\
  Variants.digraphs (list_ascii_of_string "HELLO")
  = [("H", "E"); ("L", "X"); ("L", "O")]%char /\
  Variants.build Caesar "abc"
  = Throw (InvalidKey "Caesar cipher requires an integer key") /\
  Variants.build Playfair ""
  = Throw (InvalidKey "Playfair cipher requires a key with a letter") /\
  Variants.build Vigenere "123"
  = Throw (InvalidKey "Vigenere cipher requires a key with a letter").
Proof.
  repeat split; try (eexists; repeat split; vm_compute; reflexivity).
Qed.

(** C7.  (1) A worker fails only where [applyCipher] itself fails on the
    piece of text it was given, a piece made of letters when the text is:
    taking the substring never raises, so the dispatch adds no error of
    its own.  (2) Hence, for a cipher whose [applyCipher] returns on every
    letter-only text, each of the four workers returns on a letter-only
    input, and so does the collection of their results.  (3) Each of the
    three variants, Caesar, Playfair and Vigenere, is such a cipher once
    its constructor has accepted the key: on a letter-only text no
    look-up of a letter, of a key position or of a cell of the square
    comes back empty.  (4) So the Caesar branch run with a variant the
    factory built, on a letter-only text, ends with a text whenever it
    ends. *)
Theorem worker_inherits_totality (cipher : Cipher) (mode : CipherMode)
  (inputText : string) :
  (forall i e,
     0 <= i < numThreads ->
     fn cipher inputText mode (segment_first (size inputText) i)
        (segment_len (size inputText) i) = Throw e ->
     exists piece,
       applyCipher cipher piece mode = Throw e /\
       (letters_only inputText = true -> letters_only piece = true)) /\
  ((forall text, letters_only text = true ->
                 exists out, applyCipher cipher text mode = Ok out) ->
   letters_only inputText = true ->
   (forall i, 0 <= i < numThreads ->
      exists out,
        fn cipher inputText mode (segment_first (size inputText) i)
           (segment_len (size inputText) i) = Ok out) /\
   (forall fuel poll st r st',
      dispatch fuel poll cipher mode inputText st = Some (r, st') ->
      exists out, r = Ok out)) /\
  (forall type key built,
     Variants.build type key = Ok (Some built) ->
     forall text, letters_only text = true ->
                  exists out, applyCipher built text mode = Ok out) /\
  (forall type key built,
     Variants.build type key = Ok (Some built) ->
     letters_only inputText = true ->
     (forall i, 0 <= i < numThreads ->
        exists out,
          fn built inputText mode (segment_first (size inputText) i)
             (segment_len (size inputText) i) = Ok out) /\
     (forall fuel poll st r st',
        dispatch fuel poll built mode inputText st = Some (r, st') ->
        exists out, r = Ok out)).
Proof.
  assert (Hinherit : forall c,
            (forall text, letters_only text = true ->
                          exists out, applyCipher c text mode = Ok out) ->
            letters_only inputText = true ->
            (forall i, 0 <= i < numThreads ->
               exists out,
                 fn c inputText mode (segment_first (size inputText) i)
                    (segment_len (size inputText) i) = Ok out) /\
            (forall fuel poll st r st',
               dispatch fuel poll c mode inputText st = Some (r, st') ->
               exists out, r = Ok out)).
  { intros c Htotal Hletters.
    assert (Hworker : forall i, 0 <= i < numThreads ->
              exists out,
                fn c inputText mode (segment_first (size inputText) i)
                   (segment_len (size inputText) i) = Ok out).
    { intros i Hi. rewrite fn_in_range by exact Hi.
      apply Htotal, letters_only_substring, Hletters. }
    split; [exact Hworker|].
    intros fuel poll st r st' H. unfold dispatch in H.
    rewrite launch_loop_all in H. apply collect_loop_result in H as [-> _].
    destruct (gather _ _) as [out|e] eqn:Hg; [eauto|].
    apply gather_launched_Throw in Hg as (i & Hi & Hthrow).
    destruct (Hworker i Hi) as [out Hout]. congruence. }
  split; [|split; [|split]].
  - intros i e Hi H. rewrite fn_in_range in H by exact Hi.
    eexists. split; [exact H|]. apply letters_only_substring.
  - apply Hinherit.
  - intros type key built Hbuilt text Htext.
    exact (build_total type key built Hbuilt text mode Htext).
  - intros type key built Hbuilt Hletters. apply Hinherit; [|exact Hletters].
    intros text Htext. exact (build_total type key built Hbuilt text mode Htext).
Qed.

Lemma worker_inherits_totality_witness :
  letters_only "HELLOWORLD" = true /\
  exists built,
    Variants.build Playfair "playfair example" = Ok (Some built) /\
    (forall text, letters_only text = true ->
                  exists out, applyCipher built text Encrypt = Ok out) /\
    (exists out,
       fn built "HELLOWORLD" Encrypt (segment_first (size "HELLOWORLD") 3)
          (segment_len (size "HELLOWORLD") 3) = Ok out).
Proof.
  assert (H2 : letters_only "HELLOWORLD" = true) by reflexivity.
  split; [exact H2|].
  eexists. split; [reflexivity|].
  pose proof (proj1 (proj2 (proj2 (worker_inherits_totality
                                     (caesar 0) Encrypt "HELLOWORLD")))
                Playfair "playfair example" _ eq_refl) as H1.
  split; [exact H1|].
  apply (proj1 (proj1 (proj2 (worker_inherits_totality
                                _ Encrypt "HELLOWORLD")) H1 H2)).
  unfold numThreads. lia.
Defined.
